(** * Headless test runner (headless/Headless.cpp)

    A shallow embedding of the command-line front end of the headless
    emulator: the C string helpers it relies on, [ChopFront] / [ChopEnd],
    the argument loop of [main], the boot sequence, the deadline-bounded
    run loop and the shutdown and reporting tail.  Calls into the
    emulation core, the host (graphics) object and the C library are
    recorded as a trace of events; what those collaborators answer is
    supplied by a [World]. *)

From Stdlib Require Import ZArith List String Ascii Bool Lia Floats.
Import ListNotations.

Open Scope string_scope.

(** ** C strings *)

Module CStr.

Open Scope Z_scope.

(** A character read through [unsigned char]. *)
Definition uchar (c : ascii) : Z := Z.of_nat (nat_of_ascii c).

(** [tolower] in the C locale. *)
Definition tolower (c : Z) : Z :=
  if (65 <=? c) && (c <=? 90) then c + 32 else c.

Definition strlen (s : string) : nat := String.length s.

(** The comparison functions return a negative, zero or positive [int];
    only the sign is specified, so the model returns -1, 0 or 1.  The
    terminating NUL of the shorter string compares below every
    character: the strings here are C strings (entries of [argv] and
    literals), which hold no NUL themselves. *)
Definition sign_of (c d : Z) : Z := if c <? d then -1 else 1.

Fixpoint strcmp (a b : string) : Z :=
  match a, b with
  | EmptyString, EmptyString => 0
  | EmptyString, String _ _ => -1
  | String _ _, EmptyString => 1
  | String c a', String d b' =>
      if uchar c =? uchar d then strcmp a' b' else sign_of (uchar c) (uchar d)
  end.

Fixpoint strncmp (a b : string) (n : nat) {struct n} : Z :=
  match n with
  | O => 0
  | S n' =>
      match a, b with
      | EmptyString, EmptyString => 0
      | EmptyString, String _ _ => -1
      | String _ _, EmptyString => 1
      | String c a', String d b' =>
          if uchar c =? uchar d then strncmp a' b' n'
          else sign_of (uchar c) (uchar d)
      end
  end.

Fixpoint strcasecmp (a b : string) : Z :=
  match a, b with
  | EmptyString, EmptyString => 0
  | EmptyString, String _ _ => -1
  | String _ _, EmptyString => 1
  | String c a', String d b' =>
      if tolower (uchar c) =? tolower (uchar d) then strcasecmp a' b'
      else sign_of (tolower (uchar c)) (tolower (uchar d))
  end.

(** [p + n] for a pointer [p] into a string of at least [n] characters. *)
Fixpoint ptr_add (s : string) (n : nat) : string :=
  match n, s with
  | O, _ => s
  | S n', String _ s' => ptr_add s' n'
  | S _, EmptyString => EmptyString
  end.

(** The string with every upper-case letter replaced by its lower-case
    counterpart: what [strcasecmp] compares. *)
Definition lower_ascii (c : ascii) : ascii :=
  ascii_of_nat (Z.to_nat (tolower (uchar c))).

Fixpoint lowercase (s : string) : string :=
  match s with
  | EmptyString => EmptyString
  | String c s' => String (lower_ascii c) (lowercase s')
  end.

(** What a [%s] conversion prints of [s.c_str()]: a [std::string] can
    hold NUL characters, and the conversion stops at the first one. *)
Definition is_nul (c : ascii) : bool := uchar c =? 0.

Fixpoint c_str (s : string) : string :=
  match s with
  | EmptyString => EmptyString
  | String c s' => if is_nul c then EmptyString else String c (c_str s')
  end.


End CStr.

(** ** std::string *)

Module StdString.

Definition size (s : string) : nat := String.length s.

(** [s.substr(pos, len)]: at most [len] characters from [pos]. *)
Definition substr (s : string) (pos len : nat) : string :=
  String.substring pos len s.

(** [s.substr(pos)]: everything from [pos] to the end. *)
Definition substr_from (s : string) (pos : nat) : string :=
  String.substring pos (String.length s - pos) s.

End StdString.

(** ** Test-name derivation *)

Definition ChopFront (s front : string) : string :=
  if (StdString.size front <=? StdString.size s)%nat then
    if (StdString.substr s 0 (StdString.size front) =? front)%string
    then StdString.substr_from s (StdString.size front)
    else s
  else s.

Definition ChopEnd (s end_ : string) : string :=
  if (StdString.size end_ <=? StdString.size s)%nat then
    let endpos := StdString.size s - StdString.size end_ in
    if (StdString.substr_from s endpos =? end_)%string
    then StdString.substr s 0 endpos
    else s
  else s.

(** The expression assigned to [teamCityName] in [main]. *)
Definition derive_test_name (bootFilename : string) : string :=
  ChopEnd (ChopFront (ChopFront bootFilename "tests/") "pspautotests/tests/") ".prx".

(** ** Collaborator types

    The enumerations and the parameter block are declared in other
    files of the repository (Core/CoreParameter.h, Core/Core.h,
    StubHost.h); only the members [main] touches appear. *)

Inductive GPUCore := GPU_NULL | GPU_GLES | GPU_SOFTWARE | GPU_DIRECTX9.

Inductive CPUCore := CPU_INTERPRETER | CPU_JIT.

Inductive CoreState :=
  CORE_RUNNING | CORE_NEXTFRAME | CORE_STEPPING | CORE_POWERDOWN | CORE_ERROR.

(** The classes [getHost] can instantiate. *)
Inductive HostClass := HeadlessHost | WindowsHeadlessHostDx9 | HEADLESSHOST_CLASS.

(** [coreParameter.collectEmuLog]: null, or the address of [main]'s
    local [output]. *)
Inductive StringPtr := NullPtr | AddrOfOutput.

Record CoreParameter := {
  cpuCore : CPUCore;
  cp_gpuCore : GPUCore;
  enableSound : bool;
  fileToStart : string;
  cp_mountIso : string;
  startPaused : bool;
  enableDebugging : bool;
  printfEmuLog : bool;
  collectEmuLog : StringPtr;
  headLess : bool;
  renderWidth : Z;
  renderHeight : Z;
  outputWidth : Z;
  outputHeight : Z;
  pixelWidth : Z;
  pixelHeight : Z;
  unthrottle : bool
}.

Inductive TestEvent :=
| testStarted (name : string)
| testIgnored (name message : string)
| testFailed (name message : string)
| testFinished (name : string).

(** Everything [main] does that is visible outside it, in program order. *)
Inductive Event :=
| EvStderr (text : string)
| EvStdout (text : string)
| EvTeamCity (e : TestEvent)
| EvNewHost (h : HostClass)
| EvInitGL
| EvLogManagerInit (fullLog : bool)
| EvPSP_Init (cp : CoreParameter)
| EvBootDone
| EvSetComparisonScreenshot (filename : string)
| EvSetCoreState (s : CoreState)
| EvRunLoopFor (microseconds : Z)
| EvSwapBuffers
| EvSendDebugOutput (text : string)
| EvCore_Stop
| EvShutdownGL
| EvPSP_Shutdown
| EvFlushDebugOutput
| EvDeleteHost
| EvCompareOutput (bootFilename output : string).

(** One call of [PSP_RunLoopFor] followed by [time_update]: the state the
    core leaves in [coreState], what the emulated program printed during
    the slice, and what [time_now()] says afterwards. *)
Record Quantum := {
  q_coreState : CoreState;
  q_printed : string;
  q_time : float
}.

(** What the collaborators answer during one process run: the C
    library's [strtod]; whether [HEADLESSHOST_CLASS] is a class of its
    own; the result of [host->InitGL] and of [PSP_Init], each with the
    error string it leaves; [time_now()] when the deadline is computed;
    and the slices the core runs, one per loop iteration. *)
Record World := {
  strtod : string -> float;
  has_gpu_host : bool;
  InitGL : HostClass -> bool * string;
  PSP_Init : CoreParameter -> string -> bool * string;
  time_at_start : float;
  quanta : list Quantum
}.

Definition nl : string := String (ascii_of_nat 10) EmptyString.

Definition getHost (gpuCore : GPUCore) : HostClass :=
  match gpuCore with
  | GPU_NULL => HeadlessHost
  | GPU_DIRECTX9 => WindowsHeadlessHostDx9
  | _ => HEADLESSHOST_CLASS
  end.

(** [printUsage]: one [EvStderr] per [fprintf].  [gpu_host] is the
    outcome of [typeid(h1) != typeid(h2)]; the two locals [h1] and [h2]
    serve that comparison only. *)
Definition printUsage (gpu_host : bool) (progname : string) (reason : option string)
  : list Event :=
  match reason with
  | Some r => [EvStderr ("Error: " ++ r ++ nl ++ nl)]
  | None => []
  end
  ++ [EvStderr ("PPSSPP Headless" ++ nl);
      EvStderr ("This is primarily meant as a non-interactive test tool." ++ nl ++ nl);
      EvStderr ("Usage: " ++ progname ++ " file.elf [options]" ++ nl ++ nl);
      EvStderr ("Options:" ++ nl);
      EvStderr ("  -m, --mount umd.cso   mount iso on umd:" ++ nl);
      EvStderr ("  -l, --log             full log output, not just emulated printfs" ++ nl)]
  ++ (if gpu_host then
        [EvStderr ("  --graphics=BACKEND    use the full gpu backend (slower)" ++ nl);
         EvStderr ("                        options: gles, software, directx9" ++ nl);
         EvStderr ("  --screenshot=FILE     compare against a screenshot" ++ nl)]
      else [])
  ++ [EvStderr ("  --timeout=SECONDS     abort test it if takes longer than SECONDS" ++ nl);
      EvStderr ("  -i                    use the interpreter" ++ nl);
      EvStderr ("  -j                    use jit (default)" ++ nl);
      EvStderr ("  -c, --compare         compare with output in file.expected" ++ nl);
      EvStderr (nl ++ "See headless.txt for details." ++ nl)].

(** Modelled from the spec: [TeamCityPrint] and the globals
    [teamCityMode] / [teamCityName] are defined in Compare.cpp, not in
    Headless.cpp.  The reporter emits the event when reporting is
    enabled and is a no-op otherwise. *)
Definition TeamCityPrint (teamCityMode : bool) (e : TestEvent) : list Event :=
  if teamCityMode then [EvTeamCity e] else [].

(** The line a reporting call prints, from its format string. *)
Definition render (e : TestEvent) : string :=
  match e with
  | testStarted n =>
      "##teamcity[testStarted name='" ++ n ++ "' captureStandardOutput='true']" ++ nl
  | testIgnored n m =>
      "##teamcity[testIgnored name='" ++ n ++ "' message='" ++ m ++ "']" ++ nl
  | testFailed n m =>
      "##teamcity[testFailed name='" ++ n ++ "' message='" ++ m ++ "']" ++ nl
  | testFinished n =>
      "##teamcity[testFinished name='" ++ n ++ "']" ++ nl
  end.

(** ** The argument loop of [main] *)

(** The locals the loop assigns, with [teamCityMode] (a global). *)
Record Locals := {
  fullLog : bool;
  useJit : bool;
  autoCompare : bool;
  gpuCore : GPUCore;
  bootFilename : option string;
  mountIso : option string;
  screenshotFilename : option string;
  readMount : bool;
  timeout : float;
  teamCityMode : bool
}.

Definition init_locals : Locals := {|
  fullLog := false;
  useJit := true;
  autoCompare := false;
  gpuCore := GPU_NULL;
  bootFilename := None;
  mountIso := None;
  screenshotFilename := None;
  readMount := false;
  timeout := (-1)%float;
  teamCityMode := false
|}.

Definition set_fullLog (v : bool) (l : Locals) : Locals :=
  {| fullLog := v; useJit := useJit l; autoCompare := autoCompare l;
     gpuCore := gpuCore l; bootFilename := bootFilename l; mountIso := mountIso l;
     screenshotFilename := screenshotFilename l; readMount := readMount l;
     timeout := timeout l; teamCityMode := teamCityMode l |}.

Definition set_useJit (v : bool) (l : Locals) : Locals :=
  {| fullLog := fullLog l; useJit := v; autoCompare := autoCompare l;
     gpuCore := gpuCore l; bootFilename := bootFilename l; mountIso := mountIso l;
     screenshotFilename := screenshotFilename l; readMount := readMount l;
     timeout := timeout l; teamCityMode := teamCityMode l |}.

Definition set_autoCompare (v : bool) (l : Locals) : Locals :=
  {| fullLog := fullLog l; useJit := useJit l; autoCompare := v;
     gpuCore := gpuCore l; bootFilename := bootFilename l; mountIso := mountIso l;
     screenshotFilename := screenshotFilename l; readMount := readMount l;
     timeout := timeout l; teamCityMode := teamCityMode l |}.

Definition set_gpuCore (v : GPUCore) (l : Locals) : Locals :=
  {| fullLog := fullLog l; useJit := useJit l; autoCompare := autoCompare l;
     gpuCore := v; bootFilename := bootFilename l; mountIso := mountIso l;
     screenshotFilename := screenshotFilename l; readMount := readMount l;
     timeout := timeout l; teamCityMode := teamCityMode l |}.

Definition set_bootFilename (v : string) (l : Locals) : Locals :=
  {| fullLog := fullLog l; useJit := useJit l; autoCompare := autoCompare l;
     gpuCore := gpuCore l; bootFilename := Some v; mountIso := mountIso l;
     screenshotFilename := screenshotFilename l; readMount := readMount l;
     timeout := timeout l; teamCityMode := teamCityMode l |}.

Definition set_mountIso (v : string) (l : Locals) : Locals :=
  {| fullLog := fullLog l; useJit := useJit l; autoCompare := autoCompare l;
     gpuCore := gpuCore l; bootFilename := bootFilename l; mountIso := Some v;
     screenshotFilename := screenshotFilename l; readMount := readMount l;
     timeout := timeout l; teamCityMode := teamCityMode l |}.

Definition set_screenshotFilename (v : string) (l : Locals) : Locals :=
  {| fullLog := fullLog l; useJit := useJit l; autoCompare := autoCompare l;
     gpuCore := gpuCore l; bootFilename := bootFilename l; mountIso := mountIso l;
     screenshotFilename := Some v; readMount := readMount l;
     timeout := timeout l; teamCityMode := teamCityMode l |}.

Definition set_readMount (v : bool) (l : Locals) : Locals :=
  {| fullLog := fullLog l; useJit := useJit l; autoCompare := autoCompare l;
     gpuCore := gpuCore l; bootFilename := bootFilename l; mountIso := mountIso l;
     screenshotFilename := screenshotFilename l; readMount := v;
     timeout := timeout l; teamCityMode := teamCityMode l |}.

Definition set_timeout (v : float) (l : Locals) : Locals :=
  {| fullLog := fullLog l; useJit := useJit l; autoCompare := autoCompare l;
     gpuCore := gpuCore l; bootFilename := bootFilename l; mountIso := mountIso l;
     screenshotFilename := screenshotFilename l; readMount := readMount l;
     timeout := v; teamCityMode := teamCityMode l |}.

Definition set_teamCityMode (v : bool) (l : Locals) : Locals :=
  {| fullLog := fullLog l; useJit := useJit l; autoCompare := autoCompare l;
     gpuCore := gpuCore l; bootFilename := bootFilename l; mountIso := mountIso l;
     screenshotFilename := screenshotFilename l; readMount := readMount l;
     timeout := timeout l; teamCityMode := v |}.

(** [!strcmp(a, b)] *)
Definition streq (a b : string) : bool := (CStr.strcmp a b =? 0)%Z.

(** [!strncmp(a, p, strlen(p)) && strlen(a) > strlen(p)] *)
Definition has_value (a p : string) : bool :=
  (CStr.strncmp a p (CStr.strlen p) =? 0)%Z && (CStr.strlen p <? CStr.strlen a)%nat.

(** The [strcasecmp] chain under [--graphics=]; [None] is the branch that
    prints the usage and returns. *)
Definition gpu_of_name (gpuName : string) : option GPUCore :=
  if (CStr.strcasecmp gpuName "gles" =? 0)%Z then Some GPU_GLES
  else if (CStr.strcasecmp gpuName "software" =? 0)%Z then Some GPU_SOFTWARE
  else if (CStr.strcasecmp gpuName "directx9" =? 0)%Z then Some GPU_DIRECTX9
  else if (CStr.strcasecmp gpuName "null" =? 0)%Z then Some GPU_NULL
  else None.

(** One pass through the body of the [for] loop.  [inr reason] is a
    [printUsage(argv[0], reason); return 1;]. *)
Definition parse_arg (strtod : string -> float) (l : Locals) (a : string)
  : Locals + option string :=
  if readMount l then inl (set_readMount false (set_mountIso a l))
  else if streq a "-m" || streq a "--mount" then inl (set_readMount true l)
  else if streq a "-l" || streq a "--log" then inl (set_fullLog true l)
  else if streq a "-i" then inl (set_useJit false l)
  else if streq a "-j" then inl (set_useJit true l)
  else if streq a "-c" || streq a "--compare" then inl (set_autoCompare true l)
  else if has_value a "--graphics=" then
    match gpu_of_name (CStr.ptr_add a (CStr.strlen "--graphics=")) with
    | Some g => inl (set_gpuCore g l)
    | None => inr (Some "Unknown gpu backend specified after --graphics=")
    end
  else if streq a "--graphics" then inl (set_gpuCore GPU_GLES l)
  else if has_value a "--screenshot=" then
    inl (set_screenshotFilename (CStr.ptr_add a (CStr.strlen "--screenshot=")) l)
  else if has_value a "--timeout=" then
    inl (set_timeout (strtod (CStr.ptr_add a (CStr.strlen "--timeout="))) l)
  else if streq a "--teamcity" then inl (set_teamCityMode true l)
  else match bootFilename l with
       | None => inl (set_bootFilename a l)
       | Some _ =>
           if streq a "--help" || streq a "-h" then inr None
           else inr (Some ("Unexpected argument " ++ a))
       end.

(** The [for] loop over [argv[1..argc-1]]. *)
Fixpoint parse_args (strtod : string -> float) (args : list string) (l : Locals)
  : Locals + option string :=
  match args with
  | [] => inl l
  | a :: rest =>
      match parse_arg strtod l a with
      | inl l' => parse_args strtod rest l'
      | inr reason => inr reason
      end
  end.

(** The two checks after the loop; on success the boot file name is
    known to be non-null. *)
Definition check_args (argc : nat) (l : Locals) : (Locals * string) + option string :=
  if readMount l then inr (Some "Missing argument after -m")
  else match bootFilename l with
       | None => inr (if (argc <=? 1)%nat then None else Some "No executable specified")
       | Some boot => inl (l, boot)
       end.

Definition command_line (strtod : string -> float) (argv : list string)
  : (Locals * string) + option string :=
  match parse_args strtod (tl argv) init_locals with
  | inl l => check_args (List.length argv) l
  | inr reason => inr reason
  end.

(** ** Boot, run loop and shutdown *)

(** The assignments to [coreParameter]. *)
Definition make_coreParameter (l : Locals) (boot : string) (glWorking : bool)
  : CoreParameter := {|
  cpuCore := if useJit l then CPU_JIT else CPU_INTERPRETER;
  cp_gpuCore := if glWorking then gpuCore l else GPU_NULL;
  enableSound := false;
  fileToStart := boot;
  cp_mountIso := match mountIso l with Some m => m | None => "" end;
  startPaused := false;
  enableDebugging := false;
  printfEmuLog := negb (autoCompare l);
  collectEmuLog := if autoCompare l then AddrOfOutput else NullPtr;
  headLess := true;
  renderWidth := 480;
  renderHeight := 272;
  outputWidth := 480;
  outputHeight := 272;
  pixelWidth := 480;
  pixelHeight := 272;
  unthrottle := true
|}.

(** [timeout < 0.0 ? std::numeric_limits<float>::infinity() : time_now() + timeout] *)
Definition compute_deadline (timeout now : float) : float :=
  if (timeout <? 0)%float then infinity else (now + timeout)%float.

(** The variables the [while] loop reads and writes: the global
    [coreState], and [main]'s [output] and [doCompare]. *)
Record LoopState := {
  coreState : CoreState;
  output : string;
  doCompare : bool
}.

Definition is_running (s : CoreState) : bool :=
  match s with CORE_RUNNING => true | _ => false end.

Definition is_nextframe (s : CoreState) : bool :=
  match s with CORE_NEXTFRAME => true | _ => false end.

(** Modelled from the spec: how the emulation core (Core/, not in
    Headless.cpp) routes what the emulated program prints.  With
    [printfEmuLog] the text goes straight to standard output; with a
    non-null [collectEmuLog] it is appended to the string pointed to. *)
Definition emu_printf (cp : CoreParameter) (text : string) (output : string)
  : list Event * string :=
  ((if printfEmuLog cp then [EvStdout text] else []),
   match collectEmuLog cp with
   | AddrOfOutput => output ++ text
   | NullPtr => output
   end).

(** Modelled from the spec: [Core_Stop] (Core/Core.cpp) asks the core to
    stop; the shared state leaves [CORE_RUNNING]. *)
Definition Core_Stop (s : CoreState) : CoreState := CORE_POWERDOWN.

(** [usToCycles(1000000 / 10)] is passed on as the microsecond count. *)
Definition blockTicks_us : Z := 1000000 / 10.

(** The frame-swap test in the loop body. *)
Definition frame_swap (s : CoreState) : CoreState * list Event :=
  if is_nextframe s then (CORE_RUNNING, [EvSetCoreState CORE_RUNNING; EvSwapBuffers])
  else (s, []).

(** The deadline test in the loop body. *)
Definition deadline_check (tcMode : bool) (tcName : string) (deadline now : float)
  (st : LoopState) : LoopState * list Event :=
  if (deadline <? now)%float then
    ({| coreState := Core_Stop (coreState st); output := output st; doCompare := false |},
     ([EvStdout (CStr.c_str (output st)); EvSendDebugOutput ("TIMEOUT" ++ nl)]
      ++ TeamCityPrint tcMode (testFailed tcName "Test timeout")
      ++ [EvCore_Stop])%list)
  else (st, []).

(** One iteration of the [while] loop. *)
Definition loop_body (tcMode : bool) (tcName : string) (cp : CoreParameter)
  (deadline : float) (q : Quantum) (st : LoopState) : LoopState * list Event :=
  let '(ev_emu, out1) := emu_printf cp (q_printed q) (output st) in
  let '(cs, ev_swap) := frame_swap (q_coreState q) in
  let '(st', ev_deadline) :=
    deadline_check tcMode tcName deadline (q_time q)
      {| coreState := cs; output := out1; doCompare := doCompare st |} in
  (st', ([EvRunLoopFor blockTicks_us] ++ ev_emu ++ ev_swap ++ ev_deadline)%list).

(** [while (coreState == CORE_RUNNING) { ... }], one [Quantum] per
    iteration; [None] when the list ends with the loop still running. *)
Fixpoint run_loop (tcMode : bool) (tcName : string) (cp : CoreParameter)
  (deadline : float) (qs : list Quantum) (st : LoopState)
  : option (LoopState * list Event) :=
  if is_running (coreState st) then
    match qs with
    | [] => None
    | q :: qs' =>
        let '(st', ev) := loop_body tcMode tcName cp deadline q st in
        match run_loop tcMode tcName cp deadline qs' st' with
        | Some (st'', ev') => Some (st'', (ev ++ ev')%list)
        | None => None
        end
    end
  else Some (st, []).

Record Exit := {
  exit_code : Z;
  trace : list Event
}.

(** What [main] does before [PSP_Init]: host, GL, log manager. *)
Definition startup (l : Locals) : list Event :=
  [EvNewHost (getHost (gpuCore l)); EvInitGL; EvLogManagerInit (fullLog l)].

(** The statements after the loop. *)
Definition shutdown (l : Locals) (boot tcName : string) (st : LoopState) : list Event :=
  [EvShutdownGL; EvPSP_Shutdown; EvFlushDebugOutput; EvDeleteHost]
  ++ (if autoCompare l && doCompare st then [EvCompareOutput boot (output st)] else [])
  ++ TeamCityPrint (teamCityMode l) (testFinished tcName).

(** [main] from [getHost] on, for a command line that passed the checks.
    The assignments to [g_Config] have no effect on the trace and are
    left out. *)
Definition run (w : World) (l : Locals) (boot : string) : option Exit :=
  let '(glWorking, error_string) := InitGL w (getHost (gpuCore l)) in
  let coreParameter := make_coreParameter l boot glWorking in
  let teamCityName := if teamCityMode l then derive_test_name boot else "" in
  let '(ok, error_string) := PSP_Init w coreParameter error_string in
  if negb ok then
    Some {| exit_code := 1;
            trace := startup l
              ++ [EvPSP_Init coreParameter;
                  EvStderr ("Failed to start "
                            ++ CStr.c_str (fileToStart coreParameter)
                            ++ ". Error: " ++ CStr.c_str error_string ++ nl);
                  EvStdout ("TESTERROR" ++ nl)]
              ++ TeamCityPrint (teamCityMode l)
                   (testIgnored teamCityName "PRX/ELF missing") |}
  else
    let deadline := compute_deadline (timeout l) (time_at_start w) in
    match run_loop (teamCityMode l) teamCityName coreParameter deadline (quanta w)
            {| coreState := CORE_RUNNING; output := ""; doCompare := true |} with
    | None => None
    | Some (st, ev_loop) =>
        Some {| exit_code := 0;
                trace := startup l
                  ++ [EvPSP_Init coreParameter]
                  ++ TeamCityPrint (teamCityMode l) (testStarted teamCityName)
                  ++ [EvBootDone]
                  ++ match screenshotFilename l with
                     | Some f => [EvSetComparisonScreenshot f]
                     | None => []
                     end
                  ++ [EvSetCoreState CORE_RUNNING]
                  ++ ev_loop
                  ++ shutdown l boot teamCityName st |}
    end.

Definition main (w : World) (argv : list string) : option Exit :=
  match command_line (strtod w) argv with
  | inr reason =>
      Some {| exit_code := 1;
              trace := printUsage (has_gpu_host w) (hd "" argv) reason |}
  | inl (l, boot) => run w l boot
  end.

(** ** Vocabulary for the statements *)

(** The tests [ChopFront] and [ChopEnd] make before cutting. *)
Definition front_matches (s front : string) : bool :=
  (StdString.size front <=? StdString.size s)%nat
  && (StdString.substr s 0 (StdString.size front) =? front)%string.

Definition end_matches (s end_ : string) : bool :=
  (StdString.size end_ <=? StdString.size s)%nat
  && (StdString.substr_from s (StdString.size s - StdString.size end_) =? end_)%string.

(** The name each accepted backend is spelled with. *)
Definition backend_name (g : GPUCore) : string :=
  match g with
  | GPU_GLES => "gles"
  | GPU_SOFTWARE => "software"
  | GPU_DIRECTX9 => "directx9"
  | GPU_NULL => "null"
  end.

(** The backend a lower-case name stands for. *)
Definition backend_of_lowercase (n : string) : option GPUCore :=
  if (n =? "gles")%string then Some GPU_GLES
  else if (n =? "software")%string then Some GPU_SOFTWARE
  else if (n =? "directx9")%string then Some GPU_DIRECTX9
  else if (n =? "null")%string then Some GPU_NULL
  else None.

(** The arguments the loop of [main] has a branch for. *)
Definition known_option (a : string) : bool :=
  streq a "-m" || streq a "--mount" || streq a "-l" || streq a "--log"
  || streq a "-i" || streq a "-j" || streq a "-c" || streq a "--compare"
  || has_value a "--graphics=" || streq a "--graphics"
  || has_value a "--screenshot=" || has_value a "--timeout="
  || streq a "--teamcity".

Definition count (p : Event -> bool) (tr : list Event) : nat :=
  List.length (List.filter p tr).

Definition is_started (e : Event) : bool :=
  match e with EvTeamCity (testStarted _) => true | _ => false end.

Definition is_ignored (e : Event) : bool :=
  match e with EvTeamCity (testIgnored _ _) => true | _ => false end.

Definition is_failed (e : Event) : bool :=
  match e with EvTeamCity (testFailed _ _) => true | _ => false end.

Definition is_finished (e : Event) : bool :=
  match e with EvTeamCity (testFinished _) => true | _ => false end.

Definition is_stderr (e : Event) : bool :=
  match e with EvStderr _ => true | _ => false end.

Definition is_ShutdownGL (e : Event) : bool :=
  match e with EvShutdownGL => true | _ => false end.

Definition is_PSP_Shutdown (e : Event) : bool :=
  match e with EvPSP_Shutdown => true | _ => false end.

Definition is_CompareOutput (e : Event) : bool :=
  match e with EvCompareOutput _ _ => true | _ => false end.

Definition is_SwapBuffers (e : Event) : bool :=
  match e with EvSwapBuffers => true | _ => false end.

Definition is_SetCoreState (e : Event) : bool :=
  match e with EvSetCoreState _ => true | _ => false end.

Definition is_Core_Stop (e : Event) : bool :=
  match e with EvCore_Stop => true | _ => false end.

Definition is_NewHost (e : Event) : bool :=
  match e with EvNewHost _ => true | _ => false end.

(** The answer of [host->InitGL] for the host [main] creates. *)
Definition glWorking (w : World) (l : Locals) : bool :=
  fst (InitGL w (getHost (gpuCore l))).

(** The parameter block handed to [PSP_Init]. *)
Definition boot_parameter (w : World) (l : Locals) (boot : string) : CoreParameter :=
  make_coreParameter l boot (glWorking w l).

(** The answer of [PSP_Init]. *)
Definition boot_ok (w : World) (l : Locals) (boot : string) : bool :=
  fst (PSP_Init w (boot_parameter w l boot) (snd (InitGL w (getHost (gpuCore l))))).

(** The name used in the reporting calls. *)
Definition test_name (l : Locals) (boot : string) : string :=
  if teamCityMode l then derive_test_name boot else "".

(** A slice after which the [while] condition is false: the core left
    a state other than running or next-frame, or the deadline passed. *)
Definition ends_loop (deadline : float) (q : Quantum) : bool :=
  negb (is_running (fst (frame_swap (q_coreState q)))) || (deadline <? q_time q)%float.

(** The loop body applied to a list of slices, whatever the state. *)
Fixpoint iterate (tcMode : bool) (tcName : string) (cp : CoreParameter)
  (deadline : float) (qs : list Quantum) (st : LoopState) : LoopState * list Event :=
  match qs with
  | [] => (st, [])
  | q :: qs' =>
      let '(st', ev) := loop_body tcMode tcName cp deadline q st in
      let '(st'', ev') := iterate tcMode tcName cp deadline qs' st' in
      (st'', (ev ++ ev')%list)
  end.

(** The deadline [main] computes for a run. *)
Definition deadline_of (w : World) (l : Locals) : float :=
  compute_deadline (timeout l) (time_at_start w).

(** The loop variables when the [while] is first reached. *)
Definition initial_state : LoopState :=
  {| coreState := CORE_RUNNING; output := ""; doCompare := true |}.

(** The result of the [while] loop of a run that booted. *)
Definition loop_of (w : World) (l : Locals) (boot : string)
  : option (LoopState * list Event) :=
  run_loop (teamCityMode l) (test_name l boot) (boot_parameter w l boot)
    (deadline_of w l) (quanta w) initial_state.

(** The events the loop body can produce. *)
Definition loop_event (e : Event) : bool :=
  match e with
  | EvRunLoopFor _ | EvStdout _ | EvSetCoreState _ | EvSwapBuffers
  | EvSendDebugOutput _ | EvTeamCity (testFailed _ _) | EvCore_Stop => true
  | _ => false
  end.

(** The events of an iteration that does not reach the deadline. *)
Definition quiet_event (e : Event) : bool :=
  match e with
  | EvRunLoopFor _ | EvStdout _ | EvSetCoreState _ | EvSwapBuffers => true
  | _ => false
  end.

(** The trace of [main] up to the loop, for a run that booted. *)
Definition boot_events (w : World) (l : Locals) (boot : string) : list Event :=
  startup l
  ++ [EvPSP_Init (boot_parameter w l boot)]
  ++ TeamCityPrint (teamCityMode l) (testStarted (test_name l boot))
  ++ [EvBootDone]
  ++ match screenshotFilename l with
     | Some f => [EvSetComparisonScreenshot f]
     | None => []
     end
  ++ [EvSetCoreState CORE_RUNNING].

(** The trace of [main] when [PSP_Init] fails. *)
Definition boot_failure_events (w : World) (l : Locals) (boot : string) : list Event :=
  startup l
  ++ [EvPSP_Init (boot_parameter w l boot);
      EvStderr ("Failed to start " ++ CStr.c_str boot ++ ". Error: "
                ++ CStr.c_str
                     (snd (PSP_Init w (boot_parameter w l boot)
                             (snd (InitGL w (getHost (gpuCore l)))))) ++ nl);
      EvStdout ("TESTERROR" ++ nl)]
  ++ TeamCityPrint (teamCityMode l) (testIgnored (test_name l boot) "PRX/ELF missing").

(** What the body of [if (time_now() > deadline)] leaves in the trace
    when [output] holds [buf]: [printf("%s", output.c_str())] prints
    [buf] up to its first NUL. *)
Definition timeout_events (tcMode : bool) (tcName buf : string) : list Event :=
  [EvStdout (CStr.c_str buf); EvSendDebugOutput ("TIMEOUT" ++ nl)]
  ++ TeamCityPrint tcMode (testFailed tcName "Test timeout")
  ++ [EvCore_Stop].

(** The four calls that follow the loop, before the comparison. *)
Definition cleanup_events : list Event :=
  [EvShutdownGL; EvPSP_Shutdown; EvFlushDebugOutput; EvDeleteHost].

(** Everything the emulated program printed during the given slices. *)
Definition printed (qs : list Quantum) : string :=
  fold_right (fun q acc => q_printed q ++ acc) "" qs.

(** ** Sample worlds *)

(** A [strtod] that agrees with the C library on the inputs used below. *)
Definition sample_strtod (s : string) : float :=
  if (s =? "0.5")%string then 0.5%float
  else if (s =? "-1")%string then (-1)%float
  else 0%float.

Definition sample_quanta : list Quantum :=
  [ {| q_coreState := CORE_NEXTFRAME; q_printed := "hello"; q_time := 100.25%float |};
    {| q_coreState := CORE_POWERDOWN; q_printed := "bye"; q_time := 100.75%float |} ].

(** Everything works and the program ends in the second slice. *)
Definition world_completes : World := {|
  strtod := sample_strtod;
  has_gpu_host := true;
  InitGL := fun _ => (true, "");
  PSP_Init := fun _ e => (true, e);
  time_at_start := 100%float;
  quanta := sample_quanta
|}.

(** [PSP_Init] refuses the boot file. *)
Definition world_boot_fails : World := {|
  strtod := sample_strtod;
  has_gpu_host := true;
  InitGL := fun _ => (true, "");
  PSP_Init := fun _ _ => (false, "File not found");
  time_at_start := 100%float;
  quanta := sample_quanta
|}.

(** [InitGL] fails; the core boots all the same. *)
Definition world_gl_fails : World := {|
  strtod := sample_strtod;
  has_gpu_host := true;
  InitGL := fun _ => (false, "no GL context");
  PSP_Init := fun _ e => (true, e);
  time_at_start := 100%float;
  quanta := sample_quanta
|}.

(** The emulated program keeps running; only a deadline ends the loop. *)
Definition world_slow : World := {|
  strtod := sample_strtod;
  has_gpu_host := true;
  InitGL := fun _ => (true, "");
  PSP_Init := fun _ e => (true, e);
  time_at_start := 100%float;
  quanta :=
    [ {| q_coreState := CORE_NEXTFRAME; q_printed := "hello"; q_time := 100.25%float |};
      {| q_coreState := CORE_RUNNING; q_printed := "more"; q_time := 100.75%float |};
      {| q_coreState := CORE_RUNNING; q_printed := "late"; q_time := 200%float |} ]
|}.

(** ** PrintfLogger *)

(** The levels [PrintfLogger::Log] has a [case] for (LogTypes, Log.h);
    [L_OTHER] stands for any other value, which takes the [default]. *)
Inductive LOG_LEVELS :=
  LNOTICE | LERROR | LWARNING | LINFO | LDEBUG | LVERBOSE | L_OTHER.

(** [PrintfLogger::Log]: one [fprintf] to the error stream. *)
Definition Log (level : LOG_LEVELS) (msg : string) : list Event :=
  match level with
  | LVERBOSE => [EvStderr ("V " ++ msg)]
  | LDEBUG => [EvStderr ("D " ++ msg)]
  | LINFO => [EvStderr ("I " ++ msg)]
  | LERROR => [EvStderr ("E " ++ msg)]
  | LWARNING => [EvStderr ("W " ++ msg)]
  | LNOTICE | L_OTHER => [EvStderr ("N " ++ msg)]
  end.

(** ** More vocabulary *)

Definition is_TeamCity (e : Event) : bool :=
  match e with EvTeamCity _ => true | _ => false end.

Definition is_RunLoopFor (e : Event) : bool :=
  match e with EvRunLoopFor _ => true | _ => false end.

Definition is_SendDebugOutput (e : Event) : bool :=
  match e with EvSendDebugOutput _ => true | _ => false end.

(** The state a slice leaves ends the loop by itself. *)
Definition leaves_loop (s : CoreState) : bool :=
  negb (is_running s) && negb (is_nextframe s).




(** * Properties *)

(** ** C strings *)

Lemma uchar_inj (c d : ascii) : CStr.uchar c = CStr.uchar d -> c = d.
Proof.
  unfold CStr.uchar. intros H. apply Nat2Z.inj in H.
  rewrite <- (ascii_nat_embedding c), <- (ascii_nat_embedding d). now rewrite H.
Qed.

Lemma uchar_range (c : ascii) : (0 <= CStr.uchar c < 256)%Z.
Proof. unfold CStr.uchar. pose proof (nat_ascii_bounded c). lia. Qed.

Lemma sign_of_nonzero (c d : Z) : CStr.sign_of c d <> 0%Z.
Proof. unfold CStr.sign_of. destruct (c <? d)%Z; discriminate. Qed.

Lemma strcmp_eq (a b : string) : CStr.strcmp a b = 0%Z <-> a = b.
Proof.
  revert b. induction a as [|c a IH]; intros [|d b]; simpl; try (split; congruence).
  destruct (Z.eqb_spec (CStr.uchar c) (CStr.uchar d)) as [E|E].
  - apply uchar_inj in E. subst d. rewrite IH. split; congruence.
  - split.
    + intros H. now apply sign_of_nonzero in H.
    + intros H. injection H as -> _. now contradiction E.
Qed.

Lemma streq_true (a b : string) : streq a b = true <-> a = b.
Proof. unfold streq. rewrite Z.eqb_eq. apply strcmp_eq. Qed.

Lemma streq_false (a b : string) : streq a b = false <-> a <> b.
Proof.
  rewrite <- streq_true. destruct (streq a b); split; congruence.
Qed.

Lemma lower_ascii_inj (c d : ascii) :
  CStr.lower_ascii c = CStr.lower_ascii d ->
  CStr.tolower (CStr.uchar c) = CStr.tolower (CStr.uchar d).
Proof.
  unfold CStr.lower_ascii. intros H.
  assert (R : forall x, (0 <= CStr.tolower (CStr.uchar x) < 256)%Z).
  { intros x. pose proof (uchar_range x). unfold CStr.tolower.
    destruct ((65 <=? CStr.uchar x)%Z && (CStr.uchar x <=? 90)%Z) eqn:E; [|lia].
    apply andb_prop in E. lia. }
  apply (f_equal nat_of_ascii) in H.
  rewrite !nat_ascii_embedding in H by (pose proof (R c); pose proof (R d); lia).
  pose proof (R c). pose proof (R d). lia.
Qed.

Lemma strcasecmp_eq (a b : string) :
  CStr.strcasecmp a b = 0%Z <-> CStr.lowercase a = CStr.lowercase b.
Proof.
  revert b. induction a as [|c a IH]; intros [|d b]; simpl; try (split; congruence).
  destruct (Z.eqb_spec (CStr.tolower (CStr.uchar c)) (CStr.tolower (CStr.uchar d)))
    as [E|E].
  - rewrite IH. unfold CStr.lower_ascii. rewrite E. split; congruence.
  - split.
    + intros H. now apply sign_of_nonzero in H.
    + intros H. injection H as H1 _. apply lower_ascii_inj in H1. now contradiction E.
Qed.

Lemma strcasecmp_eqb (a b : string) :
  (CStr.strcasecmp a b =? 0)%Z = (CStr.lowercase a =? CStr.lowercase b)%string.
Proof.
  destruct (String.eqb_spec (CStr.lowercase a) (CStr.lowercase b)) as [E|E].
  - apply Z.eqb_eq. now apply strcasecmp_eq.
  - apply Z.eqb_neq. now rewrite strcasecmp_eq.
Qed.

Lemma lower_ascii_idem (c : ascii) :
  CStr.lower_ascii (CStr.lower_ascii c) = CStr.lower_ascii c.
Proof. destruct c as [[] [] [] [] [] [] [] []]; reflexivity. Qed.

Lemma lowercase_idem (s : string) :
  CStr.lowercase (CStr.lowercase s) = CStr.lowercase s.
Proof.
  induction s as [|c s IH]; simpl; [reflexivity|].
  now rewrite lower_ascii_idem, IH.
Qed.

Lemma gpu_of_name_lowercase (name : string) :
  gpu_of_name name = backend_of_lowercase (CStr.lowercase name).
Proof.
  unfold gpu_of_name, backend_of_lowercase. now rewrite !strcasecmp_eqb.
Qed.

Lemma backend_of_lowercase_name (n : string) (g : GPUCore) :
  backend_of_lowercase n = Some g <-> n = backend_name g.
Proof.
  unfold backend_of_lowercase.
  destruct (String.eqb_spec n "gles") as [->|N1];
    [destruct g; simpl; split; congruence|].
  destruct (String.eqb_spec n "software") as [->|N2];
    [destruct g; simpl; split; congruence|].
  destruct (String.eqb_spec n "directx9") as [->|N3];
    [destruct g; simpl; split; congruence|].
  destruct (String.eqb_spec n "null") as [->|N4];
    [destruct g; simpl; split; congruence|].
  destruct g; simpl; split; congruence.
Qed.

(** ** Arguments that carry a value *)

Lemma strncmp_prefix (p v : string) :
  CStr.strncmp (p ++ v) p (CStr.strlen p) = 0%Z.
Proof.
  induction p as [|c p IH]; simpl; [reflexivity|].
  now rewrite Z.eqb_refl.
Qed.

Lemma ptr_add_prefix (p v : string) : CStr.ptr_add (p ++ v) (CStr.strlen p) = v.
Proof.
  induction p as [|c p IH]; simpl; [now destruct v|exact IH].
Qed.

Lemma length_app (p v : string) :
  String.length (p ++ v) = String.length p + String.length v.
Proof. induction p as [|c p IH]; simpl; [reflexivity|now rewrite IH]. Qed.

Lemma has_value_prefix (p v : string) :
  has_value (p ++ v) p = negb (v =? "")%string.
Proof.
  unfold has_value. rewrite strncmp_prefix. simpl.
  unfold CStr.strlen. rewrite length_app.
  destruct v as [|c v]; simpl.
  - rewrite Nat.add_0_r. apply Nat.ltb_irrefl.
  - apply Nat.ltb_lt. lia.
Qed.

(** ** One pass of the argument loop *)

Ltac differ := apply streq_false; simpl; congruence.

Ltac skip_flag_tests :=
  repeat match goal with
         | |- context [streq ?a ?b] =>
             replace (streq a b) with false by (symmetry; differ)
         end;
  simpl orb; cbv iota.

Lemma parse_arg_graphics (strtod : string -> float) (l : Locals) (name : string) :
  readMount l = false -> name <> "" ->
  parse_arg strtod l ("--graphics=" ++ name) =
    match gpu_of_name name with
    | Some g => inl (set_gpuCore g l)
    | None => inr (Some "Unknown gpu backend specified after --graphics=")
    end.
Proof.
  intros H N. unfold parse_arg. rewrite H. skip_flag_tests.
  rewrite has_value_prefix, ptr_add_prefix.
  destruct (String.eqb_spec name "") as [E|E]; [contradiction|]. reflexivity.
Qed.

Lemma parse_arg_timeout (strtod : string -> float) (l : Locals) (v : string) :
  readMount l = false -> v <> "" ->
  parse_arg strtod l ("--timeout=" ++ v) = inl (set_timeout (strtod v) l).
Proof.
  intros H N. unfold parse_arg. rewrite H. skip_flag_tests.
  replace (has_value ("--timeout=" ++ v) "--graphics=") with false
    by (symmetry; reflexivity).
  replace (has_value ("--timeout=" ++ v) "--screenshot=") with false
    by (symmetry; reflexivity).
  rewrite has_value_prefix, ptr_add_prefix.
  destruct (String.eqb_spec v "") as [E|E]; [contradiction|]. reflexivity.
Qed.

Lemma parse_arg_timeout_empty (strtod : string -> float) (l : Locals) :
  readMount l = false ->
  parse_arg strtod l "--timeout=" =
    match bootFilename l with
    | None => inl (set_bootFilename "--timeout=" l)
    | Some _ => inr (Some "Unexpected argument --timeout=")
    end.
Proof.
  intros H. unfold parse_arg. rewrite H. destruct (bootFilename l); reflexivity.
Qed.

Lemma parse_arg_unknown (strtod : string -> float) (l : Locals) (a : string) :
  readMount l = false -> known_option a = false ->
  parse_arg strtod l a =
    match bootFilename l with
    | None => inl (set_bootFilename a l)
    | Some _ =>
        if streq a "--help" || streq a "-h" then inr None
        else inr (Some ("Unexpected argument " ++ a))
    end.
Proof.
  intros H K. unfold known_option in K.
  repeat (apply orb_false_elim in K; destruct K as [K ?]).
  unfold parse_arg. rewrite H.
  repeat match goal with E : _ = false |- _ => rewrite E; clear E end.
  reflexivity.
Qed.

Lemma parse_args_app (strtod : string -> float) (xs ys : list string) (l : Locals) :
  parse_args strtod (xs ++ ys) l =
    match parse_args strtod xs l with
    | inl l' => parse_args strtod ys l'
    | inr r => inr r
    end.
Proof.
  revert l. induction xs as [|a xs IH]; intros l; simpl; [reflexivity|].
  destruct (parse_arg strtod l a); [apply IH|reflexivity].
Qed.

(** C9: the name after [--graphics=] is matched without regard to case:
    the argument is handled exactly as its lower-case spelling decides,
    the four names gles, software, directx9 and null select their
    backend in any capitalization, and every other name is refused with
    the usage message. *)
Theorem graphics_backend_case_insensitive
  (strtod : string -> float) (l : Locals) (name : string) :
  readMount l = false -> name <> "" ->
  parse_arg strtod l ("--graphics=" ++ name)
    = parse_arg strtod l ("--graphics=" ++ CStr.lowercase name)
  /\ (forall g, CStr.lowercase name = backend_name g ->
                parse_arg strtod l ("--graphics=" ++ name) = inl (set_gpuCore g l))
  /\ ((forall g, CStr.lowercase name <> backend_name g) ->
      parse_arg strtod l ("--graphics=" ++ name)
        = inr (Some "Unknown gpu backend specified after --graphics="))
  /\ (forall g, gpu_of_name name = Some g <-> CStr.lowercase name = backend_name g).
Proof.
  intros H N.
  assert (NL : CStr.lowercase name <> "") by (destruct name; simpl; congruence).
  rewrite !parse_arg_graphics by assumption.
  rewrite !gpu_of_name_lowercase, lowercase_idem.
  split; [reflexivity|]. split; [|split].
  - intros g E. apply backend_of_lowercase_name in E. now rewrite E.
  - intros E. destruct (backend_of_lowercase (CStr.lowercase name)) as [g|] eqn:B;
      [|reflexivity].
    apply backend_of_lowercase_name in B. now apply E in B.
  - intros g. apply backend_of_lowercase_name.
Qed.

Lemma graphics_backend_case_insensitive_witness :
  parse_arg sample_strtod init_locals "--graphics=GLES"
    = inl (set_gpuCore GPU_GLES init_locals)
  /\ parse_arg sample_strtod init_locals "--graphics=gles"
    = inl (set_gpuCore GPU_GLES init_locals).
Proof.
  destruct (graphics_backend_case_insensitive sample_strtod init_locals "GLES"
              eq_refl ltac:(discriminate)) as (A & B & _).
  split.
  - exact (B GPU_GLES eq_refl).
  - change "--graphics=gles" with ("--graphics=" ++ CStr.lowercase "GLES").
    rewrite <- A. exact (B GPU_GLES eq_refl).
Defined.

(** ** Test-name derivation *)

Lemma length_substring (s : string) (n m : nat) :
  String.length (String.substring n m s) = Nat.min m (String.length s - n).
Proof.
  revert n m. induction s as [|c s IH]; intros [|n] [|m]; simpl;
    try reflexivity; rewrite IH; simpl; try reflexivity.
  now rewrite Nat.sub_0_r.
Qed.

Lemma ChopFront_spec (s front : string) :
  ChopFront s front =
    if front_matches s front then StdString.substr_from s (StdString.size front) else s.
Proof.
  unfold ChopFront, front_matches.
  destruct (StdString.size front <=? StdString.size s)%nat; [|reflexivity].
  now destruct (StdString.substr s 0 (StdString.size front) =? front)%string.
Qed.

Lemma ChopEnd_spec (s end_ : string) :
  ChopEnd s end_ =
    if end_matches s end_
    then StdString.substr s 0 (StdString.size s - StdString.size end_)
    else s.
Proof.
  unfold ChopEnd, end_matches.
  destruct (StdString.size end_ <=? StdString.size s)%nat; [|reflexivity].
  simpl.
  now destruct (StdString.substr_from s (StdString.size s - StdString.size end_)
                =? end_)%string.
Qed.

Lemma ChopFront_length (s front : string) :
  String.length (ChopFront s front) =
    if front_matches s front then String.length s - String.length front
    else String.length s.
Proof.
  rewrite ChopFront_spec. destruct (front_matches s front); [|reflexivity].
  unfold StdString.substr_from, StdString.size. rewrite length_substring. lia.
Qed.

Lemma ChopEnd_length (s end_ : string) :
  String.length (ChopEnd s end_) =
    if end_matches s end_ then String.length s - String.length end_
    else String.length s.
Proof.
  rewrite ChopEnd_spec. destruct (end_matches s end_); [|reflexivity].
  unfold StdString.substr, StdString.size. rewrite length_substring. lia.
Qed.

Lemma front_matches_length (s front : string) :
  front_matches s front = true -> String.length front <= String.length s.
Proof.
  unfold front_matches, StdString.size. intros H. apply andb_prop in H.
  now apply Nat.leb_le.
Qed.

Lemma end_matches_length (s end_ : string) :
  end_matches s end_ = true -> String.length end_ <= String.length s.
Proof.
  unfold end_matches, StdString.size. intros H. apply andb_prop in H.
  now apply Nat.leb_le.
Qed.

(** A derived name is a fixed point exactly when nothing is left to cut. *)
Lemma derive_fixed_point (d : string) :
  derive_test_name d = d <->
  front_matches d "tests/" = false
  /\ front_matches d "pspautotests/tests/" = false
  /\ end_matches d ".prx" = false.
Proof.
  unfold derive_test_name. split.
  - intros H.
    destruct (front_matches d "tests/") eqn:F1.
    { exfalso. apply (f_equal String.length) in H.
      rewrite ChopEnd_length, !ChopFront_length, F1 in H.
      apply front_matches_length in F1. simpl in F1.
      repeat match type of H with
             | context [if ?b then _ else _] => destruct b
             end; simpl in H; lia. }
    rewrite (ChopFront_spec d "tests/"), F1 in H.
    destruct (front_matches d "pspautotests/tests/") eqn:F2.
    { exfalso. apply (f_equal String.length) in H.
      rewrite ChopEnd_length, !ChopFront_length, F2 in H.
      apply front_matches_length in F2. simpl in F2.
      repeat match type of H with
             | context [if ?b then _ else _] => destruct b
             end; simpl in H; lia. }
    rewrite (ChopFront_spec d "pspautotests/tests/"), F2 in H.
    destruct (end_matches d ".prx") eqn:F3; [|auto].
    exfalso. apply (f_equal String.length) in H.
    rewrite ChopEnd_length, F3 in H.
    apply end_matches_length in F3. simpl in F3. simpl in H. lia.
  - intros (F1 & F2 & F3).
    rewrite (ChopFront_spec d), F1, (ChopFront_spec d), F2, ChopEnd_spec, F3.
    reflexivity.
Qed.

(** C5 (amended): deriving the name again changes nothing exactly when
    the derived name no longer starts with tests/ or
    pspautotests/tests/ and no longer ends with .prx; the two examples
    of the specification are of that kind. *)
Theorem derive_test_name_idempotent_iff (s : string) :
  (derive_test_name (derive_test_name s) = derive_test_name s <->
     front_matches (derive_test_name s) "tests/" = false
     /\ front_matches (derive_test_name s) "pspautotests/tests/" = false
     /\ end_matches (derive_test_name s) ".prx" = false)
  /\ derive_test_name "pspautotests/tests/cpu/alu.prx" = "cpu/alu"
  /\ derive_test_name "cpu/alu" = "cpu/alu".
Proof.
  split; [apply derive_fixed_point|]. split; reflexivity.
Qed.

(** C5, as stated, fails: one prefix is cut per derivation, so a path
    with the prefix twice is derived to a name that is cut again. *)
Lemma derive_test_name_not_idempotent :
  derive_test_name "tests/tests/a" = "tests/a"
  /\ derive_test_name (derive_test_name "tests/tests/a") = "a".
Proof. split; reflexivity. Qed.

(** The two tests, read as prefix and suffix. *)
Lemma substring_full (s : string) : String.substring 0 (String.length s) s = s.
Proof. induction s as [|c s IH]; simpl; [reflexivity|now rewrite IH]. Qed.

Lemma substring_split (s : string) (n : nat) :
  n <= String.length s ->
  s = String.substring 0 n s ++ String.substring n (String.length s - n) s.
Proof.
  revert n. induction s as [|c s IH]; intros [|n] L; simpl in *;
    try reflexivity; try lia.
  - now rewrite substring_full.
  - f_equal. apply IH. lia.
Qed.

Lemma substring_app_front (f t : string) :
  String.substring 0 (String.length f) (f ++ t) = f.
Proof.
  induction f as [|c f IH]; simpl; [now destruct t|now rewrite IH].
Qed.

Lemma substring_app_end (t e : string) :
  String.substring (String.length t) (String.length e) (t ++ e) = e.
Proof.
  induction t as [|c t IH]; simpl; [|exact IH].
  induction e as [|c e IH]; simpl; [reflexivity|now rewrite IH].
Qed.

Lemma front_matches_prefix (s front : string) :
  front_matches s front = true <-> exists t, s = front ++ t.
Proof.
  unfold front_matches, StdString.substr, StdString.size. split.
  - intros H. apply andb_prop in H. destruct H as [L E].
    apply Nat.leb_le in L. apply String.eqb_eq in E.
    exists (String.substring (String.length front)
              (String.length s - String.length front) s).
    rewrite <- E at 1. now apply substring_split.
  - intros [t ->]. rewrite substring_app_front, String.eqb_refl, length_app.
    rewrite andb_true_r. apply Nat.leb_le. lia.
Qed.

Lemma end_matches_suffix (s end_ : string) :
  end_matches s end_ = true <-> exists t, s = t ++ end_.
Proof.
  unfold end_matches, StdString.substr_from, StdString.size. split.
  - intros H. apply andb_prop in H. destruct H as [L E].
    apply Nat.leb_le in L. apply String.eqb_eq in E.
    exists (String.substring 0 (String.length s - String.length end_) s).
    rewrite <- E at 2. now apply substring_split; lia.
  - intros [t ->]. rewrite length_app.
    replace (String.length t + String.length end_ - String.length end_)
      with (String.length t) by lia.
    replace (String.length t + String.length end_ - String.length t)
      with (String.length end_) by lia.
    rewrite substring_app_end, String.eqb_refl, andb_true_r.
    apply Nat.leb_le. lia.
Qed.

(** ** Counting events *)

Lemma count_app (p : Event -> bool) (a b : list Event) :
  count p (a ++ b) = count p a + count p b.
Proof. unfold count. now rewrite List.filter_app, List.length_app. Qed.

Lemma count_cons (p : Event -> bool) (e : Event) (a : list Event) :
  count p (e :: a) = (if p e then 1 else 0) + count p a.
Proof. unfold count. simpl. now destruct (p e). Qed.

Lemma count_none (p q : Event -> bool) (tr : list Event) :
  (forall e, q e = true -> p e = false) ->
  forallb q tr = true -> count p tr = 0.
Proof.
  intros D. induction tr as [|e tr IH]; simpl; intros H; [reflexivity|].
  apply andb_prop in H. destruct H as [Q R].
  rewrite count_cons, (D e Q), (IH R). reflexivity.
Qed.

(** ** From [main] to [run] *)

Lemma main_usage (w : World) (argv : list string) (reason : option string) :
  command_line (strtod w) argv = inr reason ->
  main w argv = Some {| exit_code := 1;
                        trace := printUsage (has_gpu_host w) (hd "" argv) reason |}.
Proof. unfold main. now intros ->. Qed.

Lemma main_run (w : World) (argv : list string) (l : Locals) (boot : string) :
  command_line (strtod w) argv = inl (l, boot) -> main w argv = run w l boot.
Proof. unfold main. now intros ->. Qed.

Lemma run_boot_failure (w : World) (l : Locals) (boot : string) :
  boot_ok w l boot = false ->
  run w l boot = Some {| exit_code := 1; trace := boot_failure_events w l boot |}.
Proof.
  unfold boot_ok, boot_failure_events, boot_parameter, glWorking, test_name, run.
  destruct (InitGL w (getHost (gpuCore l))) as [gl e]. simpl.
  destruct (PSP_Init w (make_coreParameter l boot gl) e) as [ok e']. simpl.
  now intros ->.
Qed.

Lemma run_boot_success (w : World) (l : Locals) (boot : string) :
  boot_ok w l boot = true ->
  run w l boot =
    match loop_of w l boot with
    | None => None
    | Some (st, ev_loop) =>
        Some {| exit_code := 0;
                trace := boot_events w l boot ++ ev_loop
                         ++ shutdown l boot (test_name l boot) st |}
    end.
Proof.
  unfold boot_ok, boot_events, loop_of, deadline_of, boot_parameter, glWorking,
    test_name, initial_state, run.
  destruct (InitGL w (getHost (gpuCore l))) as [gl e]. simpl.
  destruct (PSP_Init w (make_coreParameter l boot gl) e) as [ok e']. simpl.
  intros ->. simpl.
  destruct (run_loop _ _ _ _ _ _) as [[st ev]|]; [|reflexivity].
  do 2 f_equal. simpl. do 4 f_equal.
  rewrite <- List.app_assoc. simpl. do 2 f_equal.
  rewrite <- List.app_assoc. reflexivity.
Qed.

(** ** The loop body *)

Section LoopBody.

Variables (tcMode : bool) (tcName : string) (cp : CoreParameter) (deadline : float).

Lemma loop_body_state (q : Quantum) (st : LoopState) :
  fst (loop_body tcMode tcName cp deadline q st) =
    if (deadline <? q_time q)%float
    then {| coreState := CORE_POWERDOWN;
            output := snd (emu_printf cp (q_printed q) (output st));
            doCompare := false |}
    else {| coreState := fst (frame_swap (q_coreState q));
            output := snd (emu_printf cp (q_printed q) (output st));
            doCompare := doCompare st |}.
Proof.
  unfold loop_body, deadline_check, emu_printf.
  destruct (frame_swap (q_coreState q)) as [cs ev]. simpl.
  now destruct (deadline <? q_time q)%float.
Qed.

Lemma loop_body_events (q : Quantum) (st : LoopState) :
  snd (loop_body tcMode tcName cp deadline q st) =
    ([EvRunLoopFor blockTicks_us]
     ++ fst (emu_printf cp (q_printed q) (output st))
     ++ snd (frame_swap (q_coreState q))
     ++ (if (deadline <? q_time q)%float
         then timeout_events tcMode tcName
                (snd (emu_printf cp (q_printed q) (output st)))
         else []))%list.
Proof.
  unfold loop_body, deadline_check, emu_printf, timeout_events.
  destruct (frame_swap (q_coreState q)) as [cs ev]. simpl.
  now destruct (deadline <? q_time q)%float.
Qed.

Lemma loop_body_running (q : Quantum) (st : LoopState) :
  is_running (coreState (fst (loop_body tcMode tcName cp deadline q st)))
    = negb (ends_loop deadline q).
Proof.
  rewrite loop_body_state. unfold ends_loop.
  destruct (deadline <? q_time q)%float; simpl.
  - now rewrite orb_true_r.
  - now rewrite orb_false_r, negb_involutive.
Qed.

Lemma quiet_emu_printf (text out : string) :
  forallb quiet_event (fst (emu_printf cp text out)) = true.
Proof. unfold emu_printf. simpl. now destruct (printfEmuLog cp). Qed.

Lemma quiet_frame_swap (s : CoreState) :
  forallb quiet_event (snd (frame_swap s)) = true.
Proof. unfold frame_swap. now destruct (is_nextframe s). Qed.

Lemma run_loop_stopped (qs : list Quantum) (st : LoopState) :
  is_running (coreState st) = false ->
  run_loop tcMode tcName cp deadline qs st = Some (st, []).
Proof. intros H. destruct qs; simpl; now rewrite H. Qed.

Lemma run_loop_step (q : Quantum) (qs : list Quantum) (st : LoopState) :
  is_running (coreState st) = true ->
  run_loop tcMode tcName cp deadline (q :: qs) st =
    match run_loop tcMode tcName cp deadline qs
            (fst (loop_body tcMode tcName cp deadline q st)) with
    | Some (st'', ev') =>
        Some (st'', snd (loop_body tcMode tcName cp deadline q st) ++ ev')%list
    | None => None
    end.
Proof.
  intros H. simpl. rewrite H.
  now destruct (loop_body tcMode tcName cp deadline q st).
Qed.

(** The loop is left as soon as a slice ends it. *)
Lemma run_loop_total (qs : list Quantum) (st : LoopState) :
  existsb (ends_loop deadline) qs = true ->
  exists r, run_loop tcMode tcName cp deadline qs st = Some r.
Proof.
  revert st. induction qs as [|q qs IH]; intros st E; [discriminate|].
  destruct (is_running (coreState st)) eqn:R.
  - rewrite run_loop_step by assumption.
    destruct (ends_loop deadline q) eqn:Q.
    + rewrite run_loop_stopped; [eauto|].
      now rewrite loop_body_running, Q.
    + simpl in E. rewrite Q in E. simpl in E.
      destruct (IH (fst (loop_body tcMode tcName cp deadline q st)) E) as [[s e] ->].
      eauto.
  - rewrite run_loop_stopped by assumption. eauto.
Qed.

(** Iterations that do not end the loop. *)
Lemma iterate_quiet (qs : list Quantum) (st : LoopState) :
  forallb (fun q => negb (ends_loop deadline q)) qs = true ->
  is_running (coreState st) = true ->
  is_running (coreState (fst (iterate tcMode tcName cp deadline qs st))) = true
  /\ doCompare (fst (iterate tcMode tcName cp deadline qs st)) = doCompare st
  /\ forallb quiet_event (snd (iterate tcMode tcName cp deadline qs st)) = true.
Proof.
  revert st. induction qs as [|q qs IH]; intros st Q R; [simpl; auto|].
  simpl in Q. apply andb_prop in Q. destruct Q as [Q1 Q2].
  pose proof (loop_body_running q st) as B. rewrite Q1 in B.
  pose proof (loop_body_state q st) as S.
  pose proof (loop_body_events q st) as E.
  cbn [iterate].
  destruct (loop_body tcMode tcName cp deadline q st) as [st' ev].
  cbn [fst snd negb] in B, S, E.
  destruct (IH st' Q2 B) as (I1 & I2 & I3).
  destruct (iterate tcMode tcName cp deadline qs st') as [st'' ev'].
  cbn [fst snd] in *.
  apply negb_true_iff in Q1. unfold ends_loop in Q1.
  apply orb_false_elim in Q1. destruct Q1 as [_ T]. rewrite T in S, E.
  split; [assumption|]. split.
  - rewrite I2, S. reflexivity.
  - rewrite E, !forallb_app, quiet_emu_printf, quiet_frame_swap, I3. reflexivity.
Qed.

Lemma run_loop_app (qs1 rest : list Quantum) (st : LoopState) :
  forallb (fun q => negb (ends_loop deadline q)) qs1 = true ->
  is_running (coreState st) = true ->
  run_loop tcMode tcName cp deadline (qs1 ++ rest) st =
    match run_loop tcMode tcName cp deadline rest
            (fst (iterate tcMode tcName cp deadline qs1 st)) with
    | Some (st2, ev2) =>
        Some (st2, snd (iterate tcMode tcName cp deadline qs1 st) ++ ev2)%list
    | None => None
    end.
Proof.
  revert st. induction qs1 as [|q qs IH]; intros st Q R; simpl app.
  - simpl. now destruct (run_loop _ _ _ _ _ _) as [[? ?]|].
  - simpl in Q. apply andb_prop in Q. destruct Q as [Q1 Q2].
    rewrite run_loop_step by assumption.
    pose proof (loop_body_running q st) as B. rewrite Q1 in B.
    rewrite (IH _ Q2 B). simpl iterate.
    destruct (loop_body tcMode tcName cp deadline q st) as [st' ev]. simpl.
    destruct (iterate tcMode tcName cp deadline qs st') as [st'' ev']. simpl.
    destruct (run_loop _ _ _ _ _ _) as [[? ?]|]; [|reflexivity].
    now rewrite List.app_assoc.
Qed.

(** The iteration in which the deadline is found to have passed. *)
Lemma run_loop_timeout (q : Quantum) (qs : list Quantum) (st : LoopState) :
  is_running (coreState st) = true ->
  (deadline <? q_time q)%float = true ->
  run_loop tcMode tcName cp deadline (q :: qs) st =
    Some ({| coreState := CORE_POWERDOWN;
             output := snd (emu_printf cp (q_printed q) (output st));
             doCompare := false |},
          ([EvRunLoopFor blockTicks_us]
           ++ fst (emu_printf cp (q_printed q) (output st))
           ++ snd (frame_swap (q_coreState q))
           ++ timeout_events tcMode tcName
                (snd (emu_printf cp (q_printed q) (output st))))%list).
Proof.
  intros R T. rewrite run_loop_step by assumption.
  rewrite loop_body_events, loop_body_state, T.
  rewrite run_loop_stopped by reflexivity.
  now rewrite List.app_nil_r.
Qed.

End LoopBody.

(** ** How the loop can be left *)

(** Either no deadline test fired, and the trace holds only the calls of
    quiet iterations, or the last iteration is the one that timed out. *)
Lemma run_loop_shape (tcMode : bool) (tcName : string) (cp : CoreParameter)
  (deadline : float) (qs : list Quantum) (st st' : LoopState) (ev : list Event) :
  run_loop tcMode tcName cp deadline qs st = Some (st', ev) ->
  doCompare st = true ->
  is_running (coreState st') = false
  /\ ((doCompare st' = true /\ forallb quiet_event ev = true)
      \/ (doCompare st' = false /\ coreState st' = CORE_POWERDOWN
          /\ exists pre, ev = (pre ++ timeout_events tcMode tcName (output st'))%list
                         /\ forallb quiet_event pre = true)).
Proof.
  revert st ev. induction qs as [|q qs IH]; intros st ev H D.
  - simpl in H. destruct (is_running (coreState st)) eqn:R; [discriminate|].
    injection H as <- <-. auto.
  - destruct (is_running (coreState st)) eqn:R.
    + rewrite run_loop_step in H by assumption.
      pose proof (loop_body_state tcMode tcName cp deadline q st) as S.
      pose proof (loop_body_events tcMode tcName cp deadline q st) as E.
      destruct (loop_body tcMode tcName cp deadline q st) as [st1 ev1].
      cbn [fst snd] in *.
      destruct (deadline <? q_time q)%float eqn:T.
      * rewrite run_loop_stopped in H by (rewrite S; reflexivity).
        injection H as <- <-. rewrite S. split; [reflexivity|]. right.
        split; [reflexivity|]. split; [reflexivity|].
        exists ([EvRunLoopFor blockTicks_us]
                  ++ fst (emu_printf cp (q_printed q) (output st))
                  ++ snd (frame_swap (q_coreState q)))%list.
        split.
        -- rewrite E, List.app_nil_r, <- !List.app_assoc. reflexivity.
        -- rewrite !forallb_app, quiet_emu_printf, quiet_frame_swap. reflexivity.
      * destruct (run_loop tcMode tcName cp deadline qs st1) as [[st2 ev2]|] eqn:L;
          [|discriminate].
        injection H as <- <-.
        assert (Q1 : forallb quiet_event ev1 = true).
        { rewrite E, !forallb_app, quiet_emu_printf, quiet_frame_swap. reflexivity. }
        destruct (IH st1 ev2 L) as (I1 & I2).
        { rewrite S. exact D. }
        split; [assumption|].
        destruct I2 as [(C & Q)|(C & P & pre & -> & Q)].
        -- left. split; [assumption|]. now rewrite forallb_app, Q1, Q.
        -- right. split; [assumption|]. split; [assumption|].
           exists (ev1 ++ pre)%list. split.
           ++ now rewrite List.app_assoc.
           ++ now rewrite forallb_app, Q1, Q.
    + rewrite run_loop_stopped in H by assumption.
      injection H as <- <-. rewrite R. auto.
Qed.

Ltac disjoint :=
  let e := fresh "e" in
  intros e; destruct e as [| |[]| | | | | | | | | | | | | | | |]; simpl; congruence.

Lemma count_quiet (p : Event -> bool) (tr : list Event) :
  (forall e, quiet_event e = true -> p e = false) ->
  forallb quiet_event tr = true -> count p tr = 0.
Proof. apply count_none. Qed.

(** A run that booted and left the loop: its exit value. *)
Lemma main_after_boot (w : World) (argv : list string) (l : Locals) (boot : string)
  (ex : Exit) :
  command_line (strtod w) argv = inl (l, boot) ->
  boot_ok w l boot = true ->
  main w argv = Some ex ->
  exists st ev,
    loop_of w l boot = Some (st, ev)
    /\ ex = {| exit_code := 0;
               trace := boot_events w l boot ++ ev
                        ++ shutdown l boot (test_name l boot) st |}.
Proof.
  intros C B M. rewrite (main_run _ _ _ _ C), (run_boot_success _ _ _ B) in M.
  destruct (loop_of w l boot) as [[st ev]|]; [|discriminate].
  injection M as <-. eauto.
Qed.

(** A run that booted returns whenever some slice ends the loop. *)
Lemma main_returns (w : World) (argv : list string) (l : Locals) (boot : string) :
  command_line (strtod w) argv = inl (l, boot) ->
  boot_ok w l boot = true ->
  existsb (ends_loop (deadline_of w l)) (quanta w) = true ->
  exists ex, main w argv = Some ex /\ exit_code ex = 0%Z.
Proof.
  intros C B E. rewrite (main_run _ _ _ _ C), (run_boot_success _ _ _ B).
  unfold loop_of.
  destruct (run_loop_total (teamCityMode l) (test_name l boot)
              (boot_parameter w l boot) (deadline_of w l) (quanta w)
              initial_state E) as [[st ev] ->].
  eauto.
Qed.

(** A run whose boot failed. *)
Lemma main_boot_failure (w : World) (argv : list string) (l : Locals) (boot : string) :
  command_line (strtod w) argv = inl (l, boot) ->
  boot_ok w l boot = false ->
  main w argv = Some {| exit_code := 1; trace := boot_failure_events w l boot |}.
Proof.
  intros C B. now rewrite (main_run _ _ _ _ C), (run_boot_failure _ _ _ B).
Qed.

Lemma quiet_is_loop_event (tr : list Event) :
  forallb quiet_event tr = true -> forallb loop_event tr = true.
Proof.
  induction tr as [|e tr IH]; simpl; [reflexivity|].
  intros H. apply andb_prop in H. destruct H as [Q R].
  rewrite (IH R), andb_true_r.
  destruct e as [| |[]| | | | | | | | | | | | | | | |]; simpl in *; congruence.
Qed.

Lemma timeout_events_loop_events (tcMode : bool) (tcName buf : string) :
  forallb loop_event (timeout_events tcMode tcName buf) = true.
Proof. unfold timeout_events. now destruct tcMode. Qed.

(** The loop leaves only loop events in the trace. *)
Lemma run_loop_events (tcMode : bool) (tcName : string) (cp : CoreParameter)
  (deadline : float) (qs : list Quantum) (st st' : LoopState) (ev : list Event) :
  run_loop tcMode tcName cp deadline qs st = Some (st', ev) ->
  forallb loop_event ev = true.
Proof.
  revert st ev. induction qs as [|q qs IH]; intros st ev H.
  - simpl in H. destruct (is_running (coreState st)); [discriminate|].
    now injection H as <- <-.
  - destruct (is_running (coreState st)) eqn:R.
    + rewrite run_loop_step in H by assumption.
      pose proof (loop_body_events tcMode tcName cp deadline q st) as E.
      destruct (loop_body tcMode tcName cp deadline q st) as [st1 ev1].
      cbn [fst snd] in *.
      destruct (run_loop tcMode tcName cp deadline qs st1) as [[st2 ev2]|] eqn:L;
        [|discriminate].
      injection H as <- <-. rewrite forallb_app, (IH _ _ L), andb_true_r, E.
      rewrite !forallb_app.
      rewrite (quiet_is_loop_event _ (quiet_emu_printf cp _ _)).
      rewrite (quiet_is_loop_event _ (quiet_frame_swap _)).
      destruct (deadline <? q_time q)%float; [|reflexivity].
      now rewrite timeout_events_loop_events.
    + rewrite run_loop_stopped in H by assumption. now injection H as <- <-.
Qed.

(** A run that booted: no Ignored event, one Started event when
    reporting is on, and [PSP_Init] is the fourth call. *)
Lemma boot_failure_free (w : World) (argv : list string) (l : Locals) (boot : string) :
  command_line (strtod w) argv = inl (l, boot) ->
  boot_ok w l boot = true ->
  forall ex,
    main w argv = Some ex ->
    count is_ignored (trace ex) = 0
    /\ count is_started (trace ex) = (if teamCityMode l then 1 else 0)
       /\ nth_error (trace ex) 3 = Some (EvPSP_Init (boot_parameter w l boot)).
Proof.
  intros C B ex M.
  destruct (main_after_boot _ _ _ _ _ C B M) as (st & ev & L & ->).
  cbn [trace]. pose proof (run_loop_events _ _ _ _ _ _ _ _ L) as LE.
  rewrite !count_app.
  rewrite (count_none is_ignored loop_event ev) by (disjoint || assumption).
  rewrite (count_none is_started loop_event ev) by (disjoint || assumption).
  unfold boot_events, shutdown, startup, test_name.
  destruct (teamCityMode l), (screenshotFilename l),
    (autoCompare l && doCompare st); repeat split; reflexivity.
Qed.

(** C1 (amended): when the boot fails the run returns 1 with no Started
    and no Finished event, and the Ignored event, emitted when reporting
    is on, is the last thing it does; a run that boots and leaves the
    loop emits no Ignored event and exactly one Finished event, last,
    when reporting is on. *)
Theorem boot_failure_reporting
  (w : World) (argv : list string) (l : Locals) (boot : string) :
  command_line (strtod w) argv = inl (l, boot) ->
  (boot_ok w l boot = false ->
   exists ex,
     main w argv = Some ex /\ exit_code ex = 1%Z
     /\ count is_started (trace ex) = 0
     /\ count is_finished (trace ex) = 0
     /\ count is_ignored (trace ex) = (if teamCityMode l then 1 else 0)
     /\ (teamCityMode l = true ->
         exists pre,
           trace ex = (pre ++ [EvTeamCity (testIgnored (derive_test_name boot)
                                             "PRX/ELF missing")])%list))
  /\ (boot_ok w l boot = true ->
      (existsb (ends_loop (deadline_of w l)) (quanta w) = true ->
       exists ex, main w argv = Some ex /\ exit_code ex = 0%Z)
      /\ forall ex,
          main w argv = Some ex ->
          count is_ignored (trace ex) = 0
          /\ count is_started (trace ex) = (if teamCityMode l then 1 else 0)
          /\ count is_finished (trace ex) = (if teamCityMode l then 1 else 0)
          /\ (teamCityMode l = true ->
              exists pre,
                trace ex = (pre ++ [EvTeamCity (testFinished (derive_test_name boot))])%list)).
Proof.
  intros C. split.
  - intros B. eexists. split; [apply (main_boot_failure _ _ _ _ C B)|].
    cbn [exit_code trace]. unfold boot_failure_events, startup, test_name.
    destruct (teamCityMode l); repeat split; try discriminate.
    intros _. eexists. cbn [TeamCityPrint].
    rewrite List.app_assoc. reflexivity.
  - intros B. split; [apply (main_returns _ _ _ _ C B)|].
    intros ex M.
    destruct (main_after_boot _ _ _ _ _ C B M) as (st & ev & L & ->).
    cbn [trace]. pose proof (run_loop_events _ _ _ _ _ _ _ _ L) as LE.
    rewrite !count_app.
    rewrite (count_none is_ignored loop_event ev) by (disjoint || assumption).
    rewrite (count_none is_started loop_event ev) by (disjoint || assumption).
    rewrite (count_none is_finished loop_event ev) by (disjoint || assumption).
    unfold boot_events, shutdown, startup, test_name.
    repeat split.
    + destruct (teamCityMode l), (screenshotFilename l),
        (autoCompare l && doCompare st); reflexivity.
    + destruct (teamCityMode l), (screenshotFilename l),
        (autoCompare l && doCompare st); reflexivity.
    + destruct (teamCityMode l), (screenshotFilename l),
        (autoCompare l && doCompare st); reflexivity.
    + intros ->. cbn [TeamCityPrint]. eexists.
      rewrite !List.app_assoc. reflexivity.
Qed.

Lemma boot_failure_reporting_witness :
  exists ex,
    main world_boot_fails ["headless"; "--teamcity"; "tests/cpu/alu.prx"] = Some ex
    /\ exit_code ex = 1%Z
    /\ count is_started (trace ex) = 0
    /\ count is_finished (trace ex) = 0
    /\ count is_ignored (trace ex) = 1.
Proof.
  destruct (boot_failure_reporting world_boot_fails
              ["headless"; "--teamcity"; "tests/cpu/alu.prx"]
              (set_bootFilename "tests/cpu/alu.prx" (set_teamCityMode true init_locals))
              "tests/cpu/alu.prx" eq_refl) as [F _].
  destruct (F eq_refl) as (ex & M & X & S & Fi & I & _).
  exists ex. auto.
Defined.

(** C1, as stated, fails: with reporting on, a failed boot ends the
    process right after the Ignored event; no Finished event follows. *)
Lemma boot_failure_emits_no_finished :
  exists pre,
    main world_boot_fails ["headless"; "--teamcity"; "tests/cpu/alu.prx"]
      = Some {| exit_code := 1;
                trace := pre ++ [EvStdout ("TESTERROR" ++ nl);
                                 EvTeamCity (testIgnored "cpu/alu" "PRX/ELF missing")] |}
    /\ count is_finished pre = 0.
Proof. eexists [_; _; _; _; _]. split; reflexivity. Qed.

(** C2 (amended): a run that boots and leaves the loop, by timeout or by
    completion, calls ShutdownGL and then PSP_Shutdown, each exactly
    once; a run whose boot fails returns from the boot-failure branch
    and calls neither. *)
Theorem cleanup_once_after_boot
  (w : World) (argv : list string) (l : Locals) (boot : string) :
  command_line (strtod w) argv = inl (l, boot) ->
  (boot_ok w l boot = true ->
   (existsb (ends_loop (deadline_of w l)) (quanta w) = true ->
    exists ex, main w argv = Some ex /\ exit_code ex = 0%Z)
   /\ forall ex,
       main w argv = Some ex ->
       exists pre post,
         trace ex = (pre ++ [EvShutdownGL; EvPSP_Shutdown] ++ post)%list
         /\ count is_ShutdownGL pre = 0 /\ count is_PSP_Shutdown pre = 0
         /\ count is_ShutdownGL post = 0 /\ count is_PSP_Shutdown post = 0)
  /\ (boot_ok w l boot = false ->
      exists ex,
        main w argv = Some ex
        /\ count is_ShutdownGL (trace ex) = 0
        /\ count is_PSP_Shutdown (trace ex) = 0).
Proof.
  intros C. split.
  - intros B. split; [apply (main_returns _ _ _ _ C B)|].
    intros ex M.
    destruct (main_after_boot _ _ _ _ _ C B M) as (st & ev & L & ->).
    cbn [trace]. pose proof (run_loop_events _ _ _ _ _ _ _ _ L) as LE.
    exists (boot_events w l boot ++ ev)%list.
    exists ([EvFlushDebugOutput; EvDeleteHost]
              ++ (if autoCompare l && doCompare st
                  then [EvCompareOutput boot (output st)] else [])
              ++ TeamCityPrint (teamCityMode l) (testFinished (test_name l boot)))%list.
    split; [now rewrite <- List.app_assoc|].
    rewrite !count_app.
    rewrite (count_none is_ShutdownGL loop_event ev) by (disjoint || assumption).
    rewrite (count_none is_PSP_Shutdown loop_event ev) by (disjoint || assumption).
    unfold boot_events, startup.
    destruct (teamCityMode l), (screenshotFilename l),
      (autoCompare l && doCompare st); repeat split; reflexivity.
  - intros B. eexists. split; [apply (main_boot_failure _ _ _ _ C B)|].
    cbn [trace]. unfold boot_failure_events, startup.
    destruct (teamCityMode l); split; reflexivity.
Qed.

Lemma cleanup_once_after_boot_witness :
  exists ex pre post,
    main world_completes ["headless"; "tests/cpu/alu.prx"] = Some ex
    /\ trace ex = (pre ++ [EvShutdownGL; EvPSP_Shutdown] ++ post)%list
    /\ count is_ShutdownGL pre = 0 /\ count is_PSP_Shutdown pre = 0
    /\ count is_ShutdownGL post = 0 /\ count is_PSP_Shutdown post = 0.
Proof.
  destruct (cleanup_once_after_boot world_completes
              ["headless"; "tests/cpu/alu.prx"]
              (set_bootFilename "tests/cpu/alu.prx" init_locals)
              "tests/cpu/alu.prx" eq_refl) as [S _].
  destruct (S eq_refl) as [R A].
  destruct (R eq_refl) as (ex & M & _).
  destruct (A ex M) as (pre & post & H).
  exists ex, pre, post. split; assumption.
Defined.

(** C2, as stated, fails: on the boot-failure path the process returns
    without ShutdownGL and without PSP_Shutdown. *)
Lemma boot_failure_skips_cleanup :
  exists ex,
    main world_boot_fails ["headless"; "tests/cpu/alu.prx"] = Some ex
    /\ exit_code ex = 1%Z
    /\ count is_NewHost (trace ex) = 1
    /\ count is_ShutdownGL (trace ex) = 0
    /\ count is_PSP_Shutdown (trace ex) = 0.
Proof. eexists. repeat split. Qed.

(** ** The captured output *)

Lemma string_app_assoc (a b c : string) : (a ++ b) ++ c = a ++ (b ++ c).
Proof. induction a as [|x a IH]; simpl; [reflexivity|now rewrite IH]. Qed.

Lemma string_app_nil_r (a : string) : a ++ "" = a.
Proof. induction a as [|x a IH]; simpl; [reflexivity|now rewrite IH]. Qed.

Lemma printed_app (qs1 qs2 : list Quantum) :
  printed (qs1 ++ qs2) = printed qs1 ++ printed qs2.
Proof.
  induction qs1 as [|q qs IH]; simpl; [reflexivity|].
  now rewrite IH, string_app_assoc.
Qed.

(** After any number of iterations [output] holds what it held before,
    followed by everything printed since when the core was given its
    address, and nothing more when it was not. *)
Lemma iterate_output (tcMode : bool) (tcName : string) (cp : CoreParameter)
  (deadline : float) (qs : list Quantum) (st : LoopState) :
  output (fst (iterate tcMode tcName cp deadline qs st)) =
    match collectEmuLog cp with
    | AddrOfOutput => output st ++ printed qs
    | NullPtr => output st
    end.
Proof.
  revert st. induction qs as [|q qs IH]; intros st.
  - simpl. destruct (collectEmuLog cp); [reflexivity|now rewrite string_app_nil_r].
  - cbn [iterate].
    pose proof (loop_body_state tcMode tcName cp deadline q st) as S.
    destruct (loop_body tcMode tcName cp deadline q st) as [st1 ev1].
    specialize (IH st1).
    destruct (iterate tcMode tcName cp deadline qs st1) as [st2 ev2].
    cbn [fst snd] in *. rewrite IH.
    assert (O : output st1 = snd (emu_printf cp (q_printed q) (output st)))
      by (rewrite S; now destruct (deadline <? q_time q)%float).
    rewrite O. unfold emu_printf. cbn [snd printed fold_right].
    destruct (collectEmuLog cp); [reflexivity|].
    now rewrite string_app_assoc.
Qed.

Lemma collectEmuLog_boot_parameter (w : World) (l : Locals) (boot : string) :
  collectEmuLog (boot_parameter w l boot)
    = if autoCompare l then AddrOfOutput else NullPtr.
Proof. reflexivity. Qed.

Lemma printfEmuLog_boot_parameter (w : World) (l : Locals) (boot : string) :
  printfEmuLog (boot_parameter w l boot) = negb (autoCompare l).
Proof. reflexivity. Qed.

Lemma c_str_prefix (s : string) : exists rest, s = CStr.c_str s ++ rest.
Proof.
  induction s as [|c s [rest IH]]; simpl.
  - now exists "".
  - destruct (CStr.is_nul c).
    + now exists (String c s).
    + exists rest. simpl. now rewrite <- IH.
Qed.






(** ** Rejected command lines *)

Lemma printUsage_stderr (g : bool) (prog : string) (reason : option string) :
  forallb is_stderr (printUsage g prog reason) = true
  /\ 0 < count is_stderr (printUsage g prog reason).
Proof.
  unfold printUsage, count. destruct reason, g; simpl; split; (reflexivity || lia).
Qed.

Lemma usage_missing_mount (strtod : string -> float) (prog m : string)
  (pre : list string) (l : Locals) :
  m = "-m" \/ m = "--mount" ->
  parse_args strtod pre init_locals = inl l ->
  readMount l = false ->
  command_line strtod (prog :: pre ++ [m]) = inr (Some "Missing argument after -m").
Proof.
  intros M P R. unfold command_line. cbn [tl]. rewrite parse_args_app, P. simpl.
  assert (E : parse_arg strtod l m = inl (set_readMount true l)).
  { unfold parse_arg. rewrite R. destruct M as [-> | ->]; reflexivity. }
  rewrite E. reflexivity.
Qed.

Lemma usage_unknown_backend (strtod : string -> float) (prog name : string)
  (pre rest : list string) (l : Locals) :
  parse_args strtod pre init_locals = inl l ->
  readMount l = false ->
  name <> "" ->
  (forall g, CStr.lowercase name <> backend_name g) ->
  command_line strtod (prog :: pre ++ ("--graphics=" ++ name) :: rest)
    = inr (Some "Unknown gpu backend specified after --graphics=").
Proof.
  intros P R N U. unfold command_line. cbn [tl]. rewrite parse_args_app, P.
  cbn [parse_args]. rewrite parse_arg_graphics by assumption.
  rewrite gpu_of_name_lowercase.
  destruct (backend_of_lowercase (CStr.lowercase name)) as [g|] eqn:B; [|reflexivity].
  apply backend_of_lowercase_name in B. now apply U in B.
Qed.

Lemma usage_unexpected (strtod : string -> float) (prog a b : string)
  (pre rest : list string) (l : Locals) :
  parse_args strtod pre init_locals = inl l ->
  readMount l = false ->
  known_option a = false ->
  bootFilename l = Some b ->
  command_line strtod (prog :: pre ++ a :: rest)
    = inr (if streq a "--help" || streq a "-h" then None
           else Some ("Unexpected argument " ++ a)).
Proof.
  intros P R K B. unfold command_line. cbn [tl]. rewrite parse_args_app, P.
  cbn [parse_args]. rewrite parse_arg_unknown by assumption. rewrite B.
  now destruct (streq a "--help" || streq a "-h").
Qed.

Lemma first_unknown_is_boot_target (strtod : string -> float) (a : string)
  (pre : list string) (l : Locals) :
  parse_args strtod pre init_locals = inl l ->
  readMount l = false ->
  known_option a = false ->
  bootFilename l = None ->
  parse_args strtod (pre ++ [a]) init_locals = inl (set_bootFilename a l).
Proof.
  intros P R K B. rewrite parse_args_app, P. cbn [parse_args].
  rewrite parse_arg_unknown by assumption. now rewrite B.
Qed.

Lemma usage_no_boot_target (strtod : string -> float) (prog : string)
  (args : list string) (l : Locals) :
  parse_args strtod args init_locals = inl l ->
  readMount l = false ->
  bootFilename l = None ->
  command_line strtod (prog :: args)
    = inr (match args with [] => None | _ => Some "No executable specified" end).
Proof.
  intros P R B. unfold command_line. cbn [tl]. rewrite P.
  unfold check_args. rewrite R, B. now destruct args.
Qed.

(** C4 (amended): a command line the argument loop rejects (a trailing
    -m or --mount, an unknown name after --graphics=, an argument with no
    branch of its own met after the boot file has been set, or no boot
    file at all) prints the usage on the error stream and returns 1
    without doing anything else, so before getHost, InitGL and PSP_Init
    are reached; an argument with no branch of its own
    met before a boot file is set becomes the boot file; an accepted
    command line returns 1 when the boot fails and 0 whenever the loop
    is left. *)
Theorem command_line_exit_codes (w : World) (prog : string) :
  (forall argv reason,
      command_line (strtod w) argv = inr reason ->
      exists ex,
        main w argv = Some ex /\ exit_code ex = 1%Z
        /\ forallb is_stderr (trace ex) = true
        /\ 0 < count is_stderr (trace ex)
        /\ count is_NewHost (trace ex) = 0)
  /\ (forall pre l m,
         m = "-m" \/ m = "--mount" ->
         parse_args (strtod w) pre init_locals = inl l -> readMount l = false ->
         command_line (strtod w) (prog :: pre ++ [m])
           = inr (Some "Missing argument after -m"))
  /\ (forall pre l name rest,
         parse_args (strtod w) pre init_locals = inl l -> readMount l = false ->
         name <> "" -> (forall g, CStr.lowercase name <> backend_name g) ->
         command_line (strtod w) (prog :: pre ++ ("--graphics=" ++ name) :: rest)
           = inr (Some "Unknown gpu backend specified after --graphics="))
  /\ (forall pre l a b rest,
         parse_args (strtod w) pre init_locals = inl l -> readMount l = false ->
         known_option a = false -> bootFilename l = Some b ->
         command_line (strtod w) (prog :: pre ++ a :: rest)
           = inr (if streq a "--help" || streq a "-h" then None
                  else Some ("Unexpected argument " ++ a)))
  /\ (forall pre l a,
         parse_args (strtod w) pre init_locals = inl l -> readMount l = false ->
         known_option a = false -> bootFilename l = None ->
         command_line (strtod w) (prog :: pre ++ [a]) = inl (set_bootFilename a l, a))
  /\ (forall args l,
         parse_args (strtod w) args init_locals = inl l -> readMount l = false ->
         bootFilename l = None ->
         command_line (strtod w) (prog :: args)
           = inr (match args with [] => None | _ => Some "No executable specified" end))
  /\ (forall argv l boot,
         command_line (strtod w) argv = inl (l, boot) ->
         (boot_ok w l boot = false ->
          exists ex, main w argv = Some ex /\ exit_code ex = 1%Z)
         /\ (boot_ok w l boot = true ->
             (existsb (ends_loop (deadline_of w l)) (quanta w) = true ->
              exists ex, main w argv = Some ex /\ exit_code ex = 0%Z)
             /\ forall ex, main w argv = Some ex -> exit_code ex = 0%Z)).
Proof.
  split; [|split; [|split; [|split; [|split; [|split]]]]].
  - intros argv reason C. eexists. split; [apply (main_usage _ _ _ C)|].
    cbn [exit_code trace].
    destruct (printUsage_stderr (has_gpu_host w) (hd "" argv) reason) as [A P].
    repeat split; try assumption.
    apply (count_none is_NewHost is_stderr); [|assumption].
    intros e; destruct e; simpl; congruence.
  - intros pre l m. apply usage_missing_mount.
  - intros pre l name rest. apply usage_unknown_backend.
  - intros pre l a b rest. apply usage_unexpected.
  - intros pre l a P R K B. unfold command_line. cbn [tl].
    rewrite (first_unknown_is_boot_target _ _ _ _ P R K B).
    unfold check_args. cbn [readMount set_bootFilename bootFilename]. now rewrite R.
  - intros args l. apply usage_no_boot_target.
  - intros argv l boot C. split.
    + intros B. eexists. split; [apply (main_boot_failure _ _ _ _ C B)|reflexivity].
    + intros B. split; [apply (main_returns _ _ _ _ C B)|].
      intros ex M.
      now destruct (main_after_boot _ _ _ _ _ C B M) as (st & ev & _ & ->).
Qed.

Lemma command_line_exit_codes_witness :
  (exists ex,
      main world_completes ["headless"; "x.elf"; "--graphics=foo"] = Some ex
      /\ exit_code ex = 1%Z
      /\ count is_NewHost (trace ex) = 0)
  /\ command_line sample_strtod ["headless"; "x.elf"; "-m"]
     = inr (Some "Missing argument after -m")
  /\ (exists ex,
         main world_completes ["headless"; "x.elf"] = Some ex /\ exit_code ex = 0%Z).
Proof.
  destruct (command_line_exit_codes world_completes "headless")
    as (U & M & _ & _ & _ & _ & R).
  split; [|split].
  - destruct (U ["headless"; "x.elf"; "--graphics=foo"] _ eq_refl)
      as (ex & E & X & _ & _ & N).
    exists ex. auto.
  - exact (M ["x.elf"] (set_bootFilename "x.elf" init_locals) "-m"
             (or_introl eq_refl) eq_refl eq_refl).
  - destruct (R ["headless"; "x.elf"] (set_bootFilename "x.elf" init_locals)
                "x.elf" eq_refl) as [_ S].
    destruct (S eq_refl) as [T _]. exact (T eq_refl).
Defined.

(** C4, as stated, fails: an unrecognized flag given before any boot
    file is taken as the boot file; no usage is printed, the host is
    created and the run goes on to boot. *)
Lemma unrecognized_flag_is_booted :
  exists ex cp,
    main world_completes ["headless"; "--foo"] = Some ex
    /\ exit_code ex = 0%Z
    /\ count is_stderr (trace ex) = 0
    /\ count is_NewHost (trace ex) = 1
    /\ nth_error (trace ex) 3 = Some (EvPSP_Init cp)
    /\ fileToStart cp = "--foo".
Proof. do 2 eexists. repeat split. Qed.

(** ** When InitGL fails *)

(** C6 (amended): a failing InitGL is not a boot error.  The parameter
    block then asks for the null GPU core and the run goes on to
    PSP_Init, whose answer alone decides: on success the run is started
    and returns 0 with no Ignored event, on failure it is reported as
    Ignored and returns 1. *)
Theorem gl_failure_falls_back
  (w : World) (argv : list string) (l : Locals) (boot : string) :
  command_line (strtod w) argv = inl (l, boot) ->
  glWorking w l = false ->
  cp_gpuCore (boot_parameter w l boot) = GPU_NULL
  /\ (boot_ok w l boot = true ->
      (existsb (ends_loop (deadline_of w l)) (quanta w) = true ->
       exists ex, main w argv = Some ex /\ exit_code ex = 0%Z)
      /\ forall ex,
          main w argv = Some ex ->
          exit_code ex = 0%Z
          /\ count is_ignored (trace ex) = 0
          /\ count is_started (trace ex) = (if teamCityMode l then 1 else 0)
          /\ nth_error (trace ex) 3 = Some (EvPSP_Init (boot_parameter w l boot)))
  /\ (boot_ok w l boot = false ->
      exists ex,
        main w argv = Some ex /\ exit_code ex = 1%Z
        /\ count is_ignored (trace ex) = (if teamCityMode l then 1 else 0)
        /\ nth_error (trace ex) 3 = Some (EvPSP_Init (boot_parameter w l boot))).
Proof.
  intros C G. split; [|split].
  - unfold boot_parameter. rewrite G. reflexivity.
  - intros B. split; [apply (main_returns _ _ _ _ C B)|].
    intros ex M.
    destruct (boot_failure_free w argv l boot C B ex M) as (I & S).
    destruct (main_after_boot _ _ _ _ _ C B M) as (st & ev & _ & ->).
    cbn [exit_code trace] in *. auto.
  - intros B. eexists. split; [apply (main_boot_failure _ _ _ _ C B)|].
    cbn [exit_code trace]. unfold boot_failure_events, startup.
    destruct (teamCityMode l); repeat split; reflexivity.
Qed.

Lemma gl_failure_falls_back_witness :
  cp_gpuCore (boot_parameter world_gl_fails
                (set_bootFilename "x.elf" (set_gpuCore GPU_GLES init_locals)) "x.elf")
    = GPU_NULL
  /\ exists ex,
      main world_gl_fails ["headless"; "--graphics=gles"; "x.elf"] = Some ex
      /\ exit_code ex = 0%Z.
Proof.
  destruct (gl_failure_falls_back world_gl_fails
              ["headless"; "--graphics=gles"; "x.elf"]
              (set_bootFilename "x.elf" (set_gpuCore GPU_GLES init_locals))
              "x.elf" eq_refl eq_refl) as (G & S & _).
  split; [exact G|].
  destruct (S eq_refl) as [R _]. exact (R eq_refl).
Defined.

(** C6, as stated, fails: with InitGL failing and reporting on, the run
    is started, ends normally and returns 0; nothing is reported as
    Ignored. *)
Lemma gl_failure_is_not_a_boot_error :
  fst (InitGL world_gl_fails (getHost GPU_GLES)) = false
  /\ exists ex,
      main world_gl_fails ["headless"; "--teamcity"; "--graphics=gles"; "x.elf"]
        = Some ex
      /\ exit_code ex = 0%Z
      /\ count is_started (trace ex) = 1
      /\ count is_ignored (trace ex) = 0
      /\ count is_finished (trace ex) = 1.
Proof. split; [reflexivity|]. eexists. repeat split. Qed.

Lemma run_loop_output_null (tcMode : bool) (tcName : string) (cp : CoreParameter)
  (deadline : float) (qs : list Quantum) (st st' : LoopState) (ev : list Event) :
  run_loop tcMode tcName cp deadline qs st = Some (st', ev) ->
  collectEmuLog cp = NullPtr ->
  output st' = output st.
Proof.
  intros H N. revert st ev H. induction qs as [|q qs IH]; intros st ev H.
  - simpl in H. destruct (is_running (coreState st)); [discriminate|].
    now injection H as <- <-.
  - destruct (is_running (coreState st)) eqn:R.
    + rewrite run_loop_step in H by assumption.
      pose proof (loop_body_state tcMode tcName cp deadline q st) as S.
      destruct (loop_body tcMode tcName cp deadline q st) as [st1 ev1].
      cbn [fst snd] in *.
      destruct (run_loop tcMode tcName cp deadline qs st1) as [[st2 ev2]|] eqn:L;
        [|discriminate].
      injection H as <- <-. rewrite (IH _ _ L), S.
      unfold emu_printf. cbn [snd]. rewrite N.
      now destruct (deadline <? q_time q)%float.
    + rewrite run_loop_stopped in H by assumption. now injection H as <- <-.
Qed.

(** ** Where the emulated output goes *)

(** C7: the core is handed the address of [output] only when comparing.
    Without [--compare] every slice's text is printed at once, right
    after the call that produced it, and [output] is empty whenever the
    loop looks at it; with [--compare] the text is appended to [output]
    and not printed. *)
Theorem captured_output_only_when_comparing (w : World) (l : Locals) (boot : string) :
  (forall tc name d q st,
      output (fst (loop_body tc name (boot_parameter w l boot) d q st))
        = if autoCompare l then output st ++ q_printed q else output st)
  /\ (autoCompare l = false ->
      (forall tc name d q st,
          exists rest,
            snd (loop_body tc name (boot_parameter w l boot) d q st)
              = EvRunLoopFor blockTicks_us :: EvStdout (q_printed q) :: rest)
      /\ (forall tc name d qs,
             output (fst (iterate tc name (boot_parameter w l boot) d qs
                            initial_state)) = "")
      /\ (forall st ev, loop_of w l boot = Some (st, ev) -> output st = ""))
  /\ (autoCompare l = true ->
      forall text out, fst (emu_printf (boot_parameter w l boot) text out) = []).
Proof.
  split; [|split].
  - intros tc name d q st. rewrite loop_body_state.
    unfold emu_printf. cbn [snd]. rewrite collectEmuLog_boot_parameter.
    destruct (d <? q_time q)%float, (autoCompare l); reflexivity.
  - intros A. split; [|split].
    + intros tc name d q st. rewrite loop_body_events. unfold emu_printf.
      cbn [fst]. rewrite printfEmuLog_boot_parameter, A. simpl. eauto.
    + intros tc name d qs. rewrite iterate_output, collectEmuLog_boot_parameter, A.
      reflexivity.
    + intros st ev L. unfold loop_of in L.
      apply run_loop_output_null in L; [exact L|].
      now rewrite collectEmuLog_boot_parameter, A.
  - intros A text out. unfold emu_printf. cbn [fst].
    now rewrite printfEmuLog_boot_parameter, A.
Qed.

Lemma captured_output_only_when_comparing_witness :
  exists st ev,
    loop_of world_completes (set_bootFilename "x.elf" init_locals) "x.elf"
      = Some (st, ev)
    /\ output st = ""
    /\ count (fun e => match e with EvStdout _ => true | _ => false end) ev = 2.
Proof.
  destruct (captured_output_only_when_comparing world_completes
              (set_bootFilename "x.elf" init_locals) "x.elf") as (_ & A & _).
  destruct (A eq_refl) as (_ & _ & F).
  do 2 eexists. split; [reflexivity|]. split; [|reflexivity].
  eapply F. reflexivity.
Defined.

(** ** The frame swap *)

(** C8 (amended): an iteration that finds [CORE_NEXTFRAME] first sets
    the state back to [CORE_RUNNING] and then calls SwapBuffers, once;
    an iteration that finds any other state does neither. *)
Theorem frame_swap_after_resume
  (tc : bool) (name : string) (cp : CoreParameter) (d : float)
  (q : Quantum) (st : LoopState) :
  (q_coreState q = CORE_NEXTFRAME ->
   exists pre post,
     snd (loop_body tc name cp d q st)
       = (pre ++ [EvSetCoreState CORE_RUNNING; EvSwapBuffers] ++ post)%list
     /\ count is_SwapBuffers pre = 0 /\ count is_SetCoreState pre = 0
     /\ count is_SwapBuffers post = 0 /\ count is_SetCoreState post = 0
     /\ ((d <? q_time q)%float = false ->
         coreState (fst (loop_body tc name cp d q st)) = CORE_RUNNING))
  /\ (q_coreState q <> CORE_NEXTFRAME ->
      count is_SwapBuffers (snd (loop_body tc name cp d q st)) = 0
      /\ count is_SetCoreState (snd (loop_body tc name cp d q st)) = 0).
Proof.
  rewrite loop_body_events, loop_body_state. unfold frame_swap, emu_printf.
  cbn [fst snd]. split.
  - intros ->. cbn [is_nextframe fst snd].
    exists ([EvRunLoopFor blockTicks_us]
              ++ (if printfEmuLog cp then [EvStdout (q_printed q)] else []))%list.
    eexists. split; [rewrite <- !List.app_assoc; reflexivity|].
    unfold timeout_events.
    destruct (printfEmuLog cp), (d <? q_time q)%float, tc;
      repeat split; try reflexivity; discriminate.
  - intros N.
    assert (F : is_nextframe (q_coreState q) = false)
      by (destruct (q_coreState q); try reflexivity; now contradiction N).
    rewrite F. unfold timeout_events.
    destruct (printfEmuLog cp), (d <? q_time q)%float, tc;
      split; reflexivity.
Qed.

Lemma frame_swap_after_resume_witness :
  exists pre post,
    snd (loop_body false "" (make_coreParameter init_locals "x.elf" true) infinity
           {| q_coreState := CORE_NEXTFRAME; q_printed := "hello";
              q_time := 100.25%float |} initial_state)
      = (pre ++ [EvSetCoreState CORE_RUNNING; EvSwapBuffers] ++ post)%list
    /\ count is_SwapBuffers pre = 0 /\ count is_SetCoreState pre = 0.
Proof.
  destruct (frame_swap_after_resume false ""
              (make_coreParameter init_locals "x.elf" true) infinity
              {| q_coreState := CORE_NEXTFRAME; q_printed := "hello";
                 q_time := 100.25%float |} initial_state) as [S _].
  destruct (S eq_refl) as (pre & post & E & A & B & _).
  exists pre, post. auto.
Defined.

(** C8, as stated, fails: the assignment of [CORE_RUNNING] comes before
    the call of SwapBuffers, not after it. *)
Lemma swap_follows_resume :
  snd (loop_body false "" (make_coreParameter init_locals "x.elf" true) infinity
         {| q_coreState := CORE_NEXTFRAME; q_printed := "hello";
            q_time := 100.25%float |} initial_state)
  = [EvRunLoopFor 100000; EvStdout "hello"; EvSetCoreState CORE_RUNNING; EvSwapBuffers].
Proof. reflexivity. Qed.

(** ** The timeout argument and the deadline *)

Lemma add_zero_r (x : float) :
  Prim2SF x <> S754_zero true -> (x + 0)%float = x.
Proof.
  intros H. apply Prim2SF_inj. rewrite add_spec.
  change (Prim2SF 0) with (S754_zero false).
  destruct (Prim2SF x) as [[]|[]| |]; try reflexivity. now contradiction H.
Qed.

Lemma infinity_never_passed (t : float) : (infinity <? t)%float = false.
Proof.
  rewrite ltb_spec. change (Prim2SF infinity) with (S754_infinity false).
  destruct (Prim2SF t) as [[]|[]| |]; reflexivity.
Qed.

Lemma zero_not_negative : (0 <? 0)%float = false.
Proof. reflexivity. Qed.

(** Adding a zero timeout leaves every comparison with the clock as it
    is with the start time itself. *)
Lemma add_zero_ltb (x t : float) : (x + 0 <? t)%float = (x <? t)%float.
Proof.
  rewrite !ltb_spec, add_spec. change (Prim2SF 0) with (S754_zero false).
  destruct (Prim2SF x) as [[]|[]| |]; reflexivity.
Qed.

(** C10 (amended): [--timeout=V] with a non-empty [V] sets the timeout
    to [strtod(V)], so to 0 when [V] is not a number; a timeout of 0
    puts the deadline at the start time, and the run then times out in
    the first slice that ends later than it started.  [--timeout=] with
    nothing after the sign is not a timeout: it becomes the boot file
    when none is set and is an unexpected argument otherwise.  Without a
    timeout argument, or with a negative one, the deadline is infinite
    and no clock reading exceeds it. *)
Theorem timeout_argument (w : World) (l : Locals) :
  readMount l = false ->
  (forall v, v <> "" ->
     parse_arg (strtod w) l ("--timeout=" ++ v) = inl (set_timeout (strtod w v) l))
  /\ (forall v, v <> "" -> strtod w v = 0%float ->
        exists l',
          parse_arg (strtod w) l ("--timeout=" ++ v) = inl l'
          /\ timeout l' = 0%float
          /\ (forall t, (deadline_of w l' <? t)%float = (time_at_start w <? t)%float)
          /\ (Prim2SF (time_at_start w) <> S754_zero true ->
              deadline_of w l' = time_at_start w)
          /\ forall tc name cp q qs st,
              is_running (coreState st) = true ->
              (time_at_start w <? q_time q)%float = true ->
              exists buf pre,
                run_loop tc name cp (deadline_of w l') (q :: qs) st
                  = Some ({| coreState := CORE_POWERDOWN; output := buf;
                             doCompare := false |},
                          (pre ++ timeout_events tc name buf)%list))
  /\ parse_arg (strtod w) l "--timeout="
     = match bootFilename l with
       | None => inl (set_bootFilename "--timeout=" l)
       | Some _ => inr (Some "Unexpected argument --timeout=")
       end
  /\ deadline_of w init_locals = infinity
  /\ (forall t, (t <? 0)%float = true -> deadline_of w (set_timeout t l) = infinity)
  /\ (forall now, (infinity <? now)%float = false).
Proof.
  intros R. split; [|split; [|split; [|split; [|split]]]].
  - intros v N. now apply parse_arg_timeout.
  - intros v N Z. exists (set_timeout (strtod w v) l).
    split; [now apply parse_arg_timeout|].
    assert (D : deadline_of w (set_timeout (strtod w v) l)
                = (time_at_start w + 0)%float).
    { unfold deadline_of, compute_deadline. cbn [timeout set_timeout].
      now rewrite Z, zero_not_negative. }
    split; [exact Z|]. split; [|split].
    + intros t. rewrite D. apply add_zero_ltb.
    + intros S. rewrite D. now apply add_zero_r.
    + intros tc name cp q qs st Run T.
      assert (T' : (deadline_of w (set_timeout (strtod w v) l) <? q_time q)%float
                   = true) by (rewrite D, add_zero_ltb; exact T).
      rewrite (run_loop_timeout tc name cp _ q qs st Run T').
      eexists. eexists. rewrite !List.app_assoc. reflexivity.
  - now apply parse_arg_timeout_empty.
  - reflexivity.
  - intros t T. unfold deadline_of, compute_deadline. cbn [timeout set_timeout].
    now rewrite T.
  - apply infinity_never_passed.
Qed.

Lemma timeout_argument_witness :
  parse_arg sample_strtod (set_bootFilename "x.elf" init_locals) "--timeout=abc"
    = inl (set_timeout 0%float (set_bootFilename "x.elf" init_locals))
  /\ deadline_of world_slow (set_timeout 0%float (set_bootFilename "x.elf" init_locals))
     = 100%float
  /\ exists pre,
      main world_slow ["headless"; "x.elf"; "--timeout=abc"]
      = Some {| exit_code := 0;
                trace := pre ++ [EvStdout ""; EvSendDebugOutput ("TIMEOUT" ++ nl);
                                 EvCore_Stop; EvShutdownGL; EvPSP_Shutdown;
                                 EvFlushDebugOutput; EvDeleteHost] |}
      /\ count (fun e => match e with EvRunLoopFor _ => true | _ => false end) pre = 1.
Proof.
  destruct (timeout_argument world_slow (set_bootFilename "x.elf" init_locals) eq_refl)
    as (P & D & _).
  split; [|split].
  - exact (P "abc" ltac:(discriminate)).
  - destruct (D "abc" ltac:(discriminate) eq_refl) as (l' & E & _ & _ & T & _).
    rewrite (P "abc" ltac:(discriminate)) in E. injection E as <-.
    apply T. discriminate.
  - eexists [_; _; _; _; _; _; _; _; _; _]. split; reflexivity.
Defined.

(** C10, as stated, fails: [--timeout=] with an empty value, which is
    no number, does not give a timeout of 0.  After the boot file it is
    an unexpected argument: the usage is printed and 1 is returned.
    Nor is a negative timeout the only one with an infinite deadline: an
    infinite timeout, which is not below zero, has one too. *)
Lemma empty_timeout_is_usage_error :
  main world_completes ["headless"; "x.elf"; "--timeout="]
  = Some {| exit_code := 1;
            trace := printUsage true "headless"
                       (Some "Unexpected argument --timeout=") |}
  /\ (infinity <? 0)%float = false
  /\ compute_deadline infinity 100 = infinity.
Proof. repeat split. Qed.

Lemma derive_test_name_examples :
  derive_test_name "tests/cpu/alu.prx" = "cpu/alu"
  /\ derive_test_name "x.elf" = "x.elf".
Proof. split; reflexivity. Qed.

Lemma render_boot_failure :
  render (testIgnored (derive_test_name "pspautotests/tests/cpu/alu.prx")
            "PRX/ELF missing")
  = "##teamcity[testIgnored name='cpu/alu' message='PRX/ELF missing']" ++ nl.
Proof. reflexivity. Qed.

(** * Further properties of the code *)

(** ** ChopFront and ChopEnd *)

Lemma substring_drop_front (f t : string) :
  String.substring (String.length f) (String.length (f ++ t) - String.length f) (f ++ t)
    = t.
Proof.
  rewrite length_app.
  replace (String.length f + String.length t - String.length f)
    with (String.length t) by lia.
  apply substring_app_end.
Qed.

(** X1: [ChopFront] undoes a prepended prefix, whatever the prefix and
    the rest are (also when either is empty). *)
Theorem ChopFront_app (front t : string) : ChopFront (front ++ t) front = t.
Proof.
  rewrite ChopFront_spec.
  assert (M : front_matches (front ++ t) front = true)
    by (apply front_matches_prefix; eauto).
  rewrite M. unfold StdString.substr_from, StdString.size.
  apply substring_drop_front.
Qed.

(** X2: [ChopEnd] undoes an appended suffix, whatever the suffix and the
    rest are (also when either is empty). *)
Theorem ChopEnd_app (t end_ : string) : ChopEnd (t ++ end_) end_ = t.
Proof.
  rewrite ChopEnd_spec.
  assert (M : end_matches (t ++ end_) end_ = true)
    by (apply end_matches_suffix; eauto).
  rewrite M. unfold StdString.substr, StdString.size. rewrite length_app.
  replace (String.length t + String.length end_ - String.length end_)
    with (String.length t) by lia.
  apply substring_app_front.
Qed.

Lemma ChopFront_cut (s front : string) :
  exists p, s = p ++ ChopFront s front /\ (p = "" \/ p = front).
Proof.
  rewrite ChopFront_spec. destruct (front_matches s front) eqn:M.
  - apply front_matches_prefix in M. destruct M as [t ->].
    exists front. unfold StdString.substr_from, StdString.size.
    rewrite substring_drop_front. auto.
  - exists "". auto.
Qed.

Lemma ChopEnd_cut (s end_ : string) :
  exists e, s = ChopEnd s end_ ++ e /\ (e = "" \/ e = end_).
Proof.
  rewrite ChopEnd_spec. destruct (end_matches s end_) eqn:M.
  - apply end_matches_suffix in M. destruct M as [t ->].
    exists end_. unfold StdString.substr, StdString.size. rewrite length_app.
    replace (String.length t + String.length end_ - String.length end_)
      with (String.length t) by lia.
    rewrite substring_app_front. auto.
  - exists "". rewrite string_app_nil_r. auto.
Qed.

(** X3: [ChopFront] and [ChopEnd] never remove anything but the pattern:
    the input is the result with nothing or exactly the pattern put back
    in front (at the end), and a string the pattern does not match is
    returned as it is. *)
Theorem Chop_removes_only_the_pattern (s pat : string) :
  (exists p, s = p ++ ChopFront s pat /\ (p = "" \/ p = pat))
  /\ (exists e, s = ChopEnd s pat ++ e /\ (e = "" \/ e = pat))
  /\ ((forall t, s <> pat ++ t) -> ChopFront s pat = s)
  /\ ((forall t, s <> t ++ pat) -> ChopEnd s pat = s).
Proof.
  split; [apply ChopFront_cut|]. split; [apply ChopEnd_cut|]. split.
  - intros N. rewrite ChopFront_spec.
    destruct (front_matches s pat) eqn:M; [|reflexivity].
    apply front_matches_prefix in M. destruct M as [t E]. now apply N in E.
  - intros N. rewrite ChopEnd_spec.
    destruct (end_matches s pat) eqn:M; [|reflexivity].
    apply end_matches_suffix in M. destruct M as [t E]. now apply N in E.
Qed.

Lemma Chop_removes_only_the_pattern_witness :
  ChopFront "cpu/alu.prx" "tests/" = "cpu/alu.prx"
  /\ ChopEnd "cpu/alu.elf" ".prx" = "cpu/alu.elf".
Proof.
  split.
  - destruct (Chop_removes_only_the_pattern "cpu/alu.prx" "tests/")
      as (_ & _ & F & _).
    apply F. intros t E. simpl in E. discriminate E.
  - destruct (Chop_removes_only_the_pattern "cpu/alu.elf" ".prx")
      as (_ & _ & _ & G).
    apply G. intros t E. apply (f_equal (fun x => end_matches x ".prx")) in E.
    rewrite (proj2 (end_matches_suffix (t ++ ".prx") ".prx")) in E by eauto.
    discriminate.
Defined.

(** X4: the derived test name is the boot file name with a prefix and a
    suffix taken off: the prefix is nothing, tests/, pspautotests/tests/
    or both of them in that order, the suffix nothing or .prx. *)
Theorem derive_test_name_cut (s : string) :
  exists a b,
    s = a ++ derive_test_name s ++ b
    /\ (a = "" \/ a = "tests/" \/ a = "pspautotests/tests/"
        \/ a = "tests/pspautotests/tests/")
    /\ (b = "" \/ b = ".prx").
Proof.
  unfold derive_test_name.
  destruct (ChopFront_cut s "tests/") as (p1 & E1 & P1).
  destruct (ChopFront_cut (ChopFront s "tests/") "pspautotests/tests/")
    as (p2 & E2 & P2).
  destruct (ChopEnd_cut (ChopFront (ChopFront s "tests/") "pspautotests/tests/") ".prx")
    as (e & E3 & P3).
  exists (p1 ++ p2), e. split.
  - rewrite E1 at 1. rewrite E2 at 1. rewrite E3 at 1.
    now rewrite !string_app_assoc.
  - split; [|exact P3].
    destruct P1 as [-> | ->], P2 as [-> | ->]; simpl; auto.
Qed.

(** ** What an argument can change *)

Ltac parse_cases H :=
  unfold parse_arg in H;
  repeat match type of H with
         | (if ?b then _ else _) = _ => destruct b eqn:?
         | (match ?x with _ => _ end) = _ => destruct x eqn:?
         end;
  try discriminate H; try (injection H as <-).

(** Each local is assigned in the branch of its own option only. *)
Lemma parse_arg_keeps (strtod : string -> float) (l l' : Locals) (a : string) :
  parse_arg strtod l a = inl l' ->
  (streq a "--teamcity" = false -> teamCityMode l' = teamCityMode l)
  /\ (streq a "-c" || streq a "--compare" = false -> autoCompare l' = autoCompare l)
  /\ (has_value a "--timeout=" = false -> timeout l' = timeout l)
  /\ (bootFilename l' = bootFilename l \/ bootFilename l' = Some a).
Proof.
  intros H. parse_cases H; cbn; repeat split; auto; congruence.
Qed.

Lemma parse_args_keeps (strtod : string -> float) (args : list string) (l l' : Locals) :
  parse_args strtod args l = inl l' ->
  (~ In "--teamcity" args -> teamCityMode l' = teamCityMode l)
  /\ (~ In "-c" args -> ~ In "--compare" args -> autoCompare l' = autoCompare l)
  /\ ((forall a, In a args -> has_value a "--timeout=" = false) ->
      timeout l' = timeout l)
  /\ (bootFilename l' = bootFilename l \/ exists a, In a args /\ bootFilename l' = Some a).
Proof.
  revert l. induction args as [|a args IH]; intros l H; simpl in H.
  - injection H as <-. auto.
  - destruct (parse_arg strtod l a) as [l1|] eqn:P; [|discriminate].
    destruct (parse_arg_keeps _ _ _ _ P) as (K1 & K2 & K3 & K4).
    destruct (IH _ H) as (I1 & I2 & I3 & I4).
    split; [|split; [|split]].
    + intros N. rewrite I1, K1.
      * reflexivity.
      * apply streq_false. intros ->. apply N. now left.
      * intros M. apply N. now right.
    + intros N1 N2. rewrite I2, K2.
      * reflexivity.
      * apply orb_false_intro; apply streq_false; intros ->;
          [apply N1|apply N2]; now left.
      * intros M. apply N1. now right.
      * intros M. apply N2. now right.
    + intros N. rewrite I3, K3.
      * reflexivity.
      * apply N. now left.
      * intros b M. apply N. now right.
    + destruct I4 as [E|(b & M & E)].
      * rewrite E. destruct K4 as [E'|E']; [now left|].
        right. exists a. split; [now left|exact E'].
      * right. exists b. split; [now right|exact E].
Qed.

(** What an accepted command line leaves in the locals. *)
Lemma command_line_accepts (strtod : string -> float) (argv : list string)
  (l : Locals) (boot : string) :
  command_line strtod argv = inl (l, boot) ->
  parse_args strtod (tl argv) init_locals = inl l
  /\ readMount l = false /\ bootFilename l = Some boot.
Proof.
  unfold command_line, check_args.
  destruct (parse_args strtod (tl argv) init_locals) as [l0|]; [|discriminate].
  destruct (readMount l0) eqn:R; [discriminate|].
  destruct (bootFilename l0) as [b|] eqn:B; [|discriminate].
  intros H. injection H as <- <-. auto.
Qed.

(** The three ways [main] can return. *)
Lemma main_cases (w : World) (argv : list string) (ex : Exit) :
  main w argv = Some ex ->
  (exists reason,
      command_line (strtod w) argv = inr reason
      /\ ex = {| exit_code := 1;
                 trace := printUsage (has_gpu_host w) (hd "" argv) reason |})
  \/ (exists l boot,
         command_line (strtod w) argv = inl (l, boot)
         /\ boot_ok w l boot = false
         /\ ex = {| exit_code := 1; trace := boot_failure_events w l boot |})
  \/ (exists l boot st ev,
         command_line (strtod w) argv = inl (l, boot)
         /\ boot_ok w l boot = true
         /\ loop_of w l boot = Some (st, ev)
         /\ ex = {| exit_code := 0;
                    trace := boot_events w l boot ++ ev
                             ++ shutdown l boot (test_name l boot) st |}).
Proof.
  intros M. destruct (command_line (strtod w) argv) as [[l boot]|reason] eqn:C.
  - destruct (boot_ok w l boot) eqn:B.
    + right. right.
      destruct (main_after_boot _ _ _ _ _ C B M) as (st & ev & L & E).
      exists l, boot, st, ev. auto.
    + right. left. rewrite (main_boot_failure _ _ _ _ C B) in M.
      injection M as <-. exists l, boot. auto.
  - left. rewrite (main_usage _ _ _ C) in M. injection M as <-. eauto.
Qed.

(** ** What the loop leaves in the trace *)

Lemma run_loop_forallb (p : Event -> bool) (tcMode : bool) (tcName : string)
  (cp : CoreParameter) (deadline : float) (qs : list Quantum)
  (st st' : LoopState) (ev : list Event) :
  (forall q s, forallb p (snd (loop_body tcMode tcName cp deadline q s)) = true) ->
  run_loop tcMode tcName cp deadline qs st = Some (st', ev) ->
  forallb p ev = true.
Proof.
  intros B. revert st ev. induction qs as [|q qs IH]; intros st ev H.
  - simpl in H. destruct (is_running (coreState st)); [discriminate|].
    now injection H as <- <-.
  - destruct (is_running (coreState st)) eqn:R.
    + rewrite run_loop_step in H by assumption.
      destruct (run_loop tcMode tcName cp deadline qs _) as [[st2 ev2]|] eqn:L;
        [|discriminate].
      injection H as <- <-. now rewrite forallb_app, B, (IH _ _ L).
    + rewrite run_loop_stopped in H by assumption. now injection H as <- <-.
Qed.

Lemma loop_body_no_reporting (name : string) (cp : CoreParameter) (d : float)
  (q : Quantum) (s : LoopState) :
  forallb (fun e => negb (is_TeamCity e)) (snd (loop_body false name cp d q s)) = true.
Proof.
  rewrite loop_body_events. unfold emu_printf, frame_swap, timeout_events.
  cbn [fst snd]. rewrite !forallb_app.
  destruct (printfEmuLog cp), (is_nextframe (q_coreState q)),
    (d <? q_time q)%float; reflexivity.
Qed.

Lemma printUsage_only_stderr (p : Event -> bool) (g : bool) (prog : string)
  (reason : option string) :
  (forall e, is_stderr e = true -> p e = false) ->
  count p (printUsage g prog reason) = 0.
Proof.
  intros D. apply (count_none p is_stderr); [exact D|].
  apply printUsage_stderr.
Qed.

(** X5: reporting is switched on by the argument --teamcity alone: a
    command line without it leaves no reporting event in the trace,
    whatever else happens (usage error, boot failure, timeout,
    completion). *)
Theorem no_reporting_without_teamcity (w : World) (argv : list string) (ex : Exit) :
  ~ In "--teamcity" (tl argv) ->
  main w argv = Some ex ->
  count is_TeamCity (trace ex) = 0.
Proof.
  intros N M.
  destruct (main_cases _ _ _ M)
    as [(reason & C & ->)|[(l & boot & C & B & ->)|(l & boot & st & ev & C & B & L & ->)]];
    cbn [trace].
  - apply printUsage_only_stderr. intros e; destruct e; simpl; congruence.
  - destruct (command_line_accepts _ _ _ _ C) as (P & _ & _).
    destruct (parse_args_keeps _ _ _ _ P) as (T & _). specialize (T N).
    unfold boot_failure_events, startup. rewrite T. reflexivity.
  - destruct (command_line_accepts _ _ _ _ C) as (P & _ & _).
    destruct (parse_args_keeps _ _ _ _ P) as (T & _). specialize (T N).
    cbn [teamCityMode init_locals] in T.
    unfold loop_of in L. rewrite T in L.
    pose proof (run_loop_forallb _ _ _ _ _ _ _ _ _
                  (loop_body_no_reporting _ _ _) L) as Q.
    rewrite !count_app.
    rewrite (count_none is_TeamCity _ ev
               (fun e H => proj1 (negb_true_iff _) H) Q).
    unfold boot_events, shutdown, startup. rewrite T.
    destruct (screenshotFilename l), (autoCompare l && doCompare st); reflexivity.
Qed.

Lemma no_reporting_without_teamcity_witness :
  exists ex,
    main world_completes ["headless"; "tests/cpu/alu.prx"] = Some ex
    /\ exit_code ex = 0%Z
    /\ count is_TeamCity (trace ex) = 0.
Proof.
  eexists. split; [reflexivity|]. split; [reflexivity|].
  apply (no_reporting_without_teamcity world_completes
           ["headless"; "tests/cpu/alu.prx"]).
  - simpl. intros [E|[]]. discriminate E.
  - reflexivity.
Defined.

(** X6: the output is compared only on request: a command line with
    neither -c nor --compare never reaches CompareOutput, and the core
    is told to print the emulated output rather than to collect it. *)
Theorem no_comparison_without_compare (w : World) (argv : list string) (ex : Exit) :
  ~ In "-c" (tl argv) -> ~ In "--compare" (tl argv) ->
  main w argv = Some ex ->
  count is_CompareOutput (trace ex) = 0
  /\ forall cp, In (EvPSP_Init cp) (trace ex) ->
                printfEmuLog cp = true /\ collectEmuLog cp = NullPtr.
Proof.
  intros N1 N2 M.
  destruct (main_cases _ _ _ M)
    as [(reason & C & ->)|[(l & boot & C & B & ->)|(l & boot & st & ev & C & B & L & ->)]];
    cbn [trace].
  - split.
    + apply printUsage_only_stderr. intros e; destruct e; simpl; congruence.
    + intros cp I. exfalso.
      destruct (printUsage_stderr (has_gpu_host w) (hd "" argv) reason) as [A _].
      rewrite forallb_forall in A. apply A in I. discriminate I.
  - destruct (command_line_accepts _ _ _ _ C) as (P & _ & _).
    destruct (parse_args_keeps _ _ _ _ P) as (_ & A & _). specialize (A N1 N2).
    cbn [autoCompare init_locals] in A.
    unfold boot_failure_events, startup. split.
    + destruct (teamCityMode l); reflexivity.
    + intros cp I.
      assert (E : cp = boot_parameter w l boot).
      { destruct (teamCityMode l); simpl in I;
          repeat (destruct I as [I|I]; try discriminate I; try now injection I);
          contradiction. }
      subst cp. rewrite printfEmuLog_boot_parameter, collectEmuLog_boot_parameter, A.
      auto.
  - destruct (command_line_accepts _ _ _ _ C) as (P & _ & _).
    destruct (parse_args_keeps _ _ _ _ P) as (_ & A & _). specialize (A N1 N2).
    cbn [autoCompare init_locals] in A.
    pose proof (run_loop_events _ _ _ _ _ _ _ _ L) as LE. split.
    + rewrite !count_app.
      rewrite (count_none is_CompareOutput loop_event ev) by (disjoint || assumption).
      unfold boot_events, shutdown, startup. rewrite A.
      destruct (teamCityMode l), (screenshotFilename l); reflexivity.
    + intros cp I.
      assert (E : cp = boot_parameter w l boot).
      { apply in_app_or in I. destruct I as [I|I].
        - unfold boot_events, startup in I.
          destruct (teamCityMode l), (screenshotFilename l); simpl in I;
            repeat (destruct I as [I|I]; try discriminate I; try now injection I);
            contradiction.
        - exfalso. apply in_app_or in I. destruct I as [I|I].
          + rewrite forallb_forall in LE. apply LE in I. discriminate I.
          + unfold shutdown in I. rewrite A in I.
            destruct (teamCityMode l); simpl in I;
              repeat (destruct I as [I|I]; try discriminate I); contradiction. }
      subst cp. rewrite printfEmuLog_boot_parameter, collectEmuLog_boot_parameter, A.
      auto.
Qed.

Lemma no_comparison_without_compare_witness :
  exists ex,
    main world_slow ["headless"; "--timeout=0.5"; "x.elf"] = Some ex
    /\ count is_CompareOutput (trace ex) = 0.
Proof.
  eexists. split; [reflexivity|].
  apply (no_comparison_without_compare world_slow
           ["headless"; "--timeout=0.5"; "x.elf"]).
  - simpl. intros [E|[E|[]]]; discriminate E.
  - simpl. intros [E|[E|[]]]; discriminate E.
  - reflexivity.
Defined.

(** ** Runs without a deadline *)

Lemma run_loop_never_late (tcMode : bool) (tcName : string) (cp : CoreParameter)
  (deadline : float) (qs : list Quantum) (st st' : LoopState) (ev : list Event) :
  (forall t, (deadline <? t)%float = false) ->
  run_loop tcMode tcName cp deadline qs st = Some (st', ev) ->
  forallb quiet_event ev = true /\ doCompare st' = doCompare st.
Proof.
  intros D. revert st ev. induction qs as [|q qs IH]; intros st ev H.
  - simpl in H. destruct (is_running (coreState st)); [discriminate|].
    injection H as <- <-. auto.
  - destruct (is_running (coreState st)) eqn:R.
    + rewrite run_loop_step in H by assumption.
      pose proof (loop_body_state tcMode tcName cp deadline q st) as S.
      pose proof (loop_body_events tcMode tcName cp deadline q st) as E.
      rewrite D in S, E.
      destruct (loop_body tcMode tcName cp deadline q st) as [st1 ev1].
      cbn [fst snd] in *.
      destruct (run_loop tcMode tcName cp deadline qs st1) as [[st2 ev2]|] eqn:L;
        [|discriminate].
      injection H as <- <-. destruct (IH _ _ L) as [Q C]. split.
      * rewrite forallb_app, Q, E, !forallb_app, quiet_emu_printf, quiet_frame_swap.
        reflexivity.
      * rewrite C, S. reflexivity.
    + rewrite run_loop_stopped in H by assumption. injection H as <- <-. auto.
Qed.

(** X7: a run is cut short only on request: when no argument carries a
    value after --timeout=, the deadline is infinite and a run that
    returns was never stopped: no Core_Stop, no TIMEOUT line, no Failed
    event from [main]. *)
Theorem no_timeout_without_timeout_argument
  (w : World) (argv : list string) (ex : Exit) :
  (forall a, In a (tl argv) -> has_value a "--timeout=" = false) ->
  main w argv = Some ex ->
  count is_Core_Stop (trace ex) = 0
  /\ count is_SendDebugOutput (trace ex) = 0
  /\ count is_failed (trace ex) = 0.
Proof.
  intros N M.
  destruct (main_cases _ _ _ M)
    as [(reason & C & ->)|[(l & boot & C & B & ->)|(l & boot & st & ev & C & B & L & ->)]];
    cbn [trace].
  - repeat split; apply printUsage_only_stderr;
      intros e; destruct e; simpl; congruence.
  - unfold boot_failure_events, startup.
    destruct (teamCityMode l); repeat split; reflexivity.
  - destruct (command_line_accepts _ _ _ _ C) as (P & _ & _).
    destruct (parse_args_keeps _ _ _ _ P) as (_ & _ & T & _). specialize (T N).
    cbn [timeout init_locals] in T.
    assert (D : deadline_of w l = infinity).
    { unfold deadline_of, compute_deadline. rewrite T. reflexivity. }
    unfold loop_of in L. rewrite D in L.
    destruct (run_loop_never_late _ _ _ _ _ _ _ _ infinity_never_passed L) as [Q _].
    rewrite !count_app.
    rewrite (count_quiet is_Core_Stop ev) by (disjoint || assumption).
    rewrite (count_quiet is_SendDebugOutput ev) by (disjoint || assumption).
    rewrite (count_quiet is_failed ev) by (disjoint || assumption).
    unfold boot_events, shutdown, startup.
    destruct (teamCityMode l), (screenshotFilename l),
      (autoCompare l && doCompare st); repeat split; reflexivity.
Qed.

Lemma no_timeout_without_timeout_argument_witness :
  exists ex,
    main world_completes ["headless"; "--teamcity"; "-c"; "x.elf"] = Some ex
    /\ count is_Core_Stop (trace ex) = 0
    /\ count is_SendDebugOutput (trace ex) = 0
    /\ count is_failed (trace ex) = 0.
Proof.
  eexists. split; [reflexivity|].
  apply (no_timeout_without_timeout_argument world_completes
           ["headless"; "--teamcity"; "-c"; "x.elf"]).
  - simpl. intros a [<-|[<-|[<-|[]]]]; reflexivity.
  - reflexivity.
Defined.

(** X8: a run is stopped for a timeout at most once, and a run that was
    stopped is never compared: every trace holds at most one of
    Core_Stop and CompareOutput, each TIMEOUT line and each Failed event
    of [main] belongs to that one stop. *)
Theorem timeout_and_comparison_exclude (w : World) (argv : list string) (ex : Exit) :
  main w argv = Some ex ->
  count is_Core_Stop (trace ex) + count is_CompareOutput (trace ex) <= 1
  /\ count is_SendDebugOutput (trace ex) = count is_Core_Stop (trace ex)
  /\ count is_failed (trace ex) <= count is_Core_Stop (trace ex).
Proof.
  intros M.
  destruct (main_cases _ _ _ M)
    as [(reason & C & ->)|[(l & boot & C & B & ->)|(l & boot & st & ev & C & B & L & ->)]];
    cbn [trace].
  - rewrite !(printUsage_only_stderr _ _ _ _)
      by (intros e; destruct e; simpl; congruence).
    lia.
  - unfold boot_failure_events, startup.
    destruct (teamCityMode l); unfold count; simpl; lia.
  - unfold loop_of in L.
    destruct (run_loop_shape _ _ _ _ _ _ _ _ L eq_refl)
      as (_ & [(D & Q)|(D & _ & pre & -> & Q)]).
    + rewrite !count_app.
      rewrite (count_quiet is_Core_Stop ev) by (disjoint || assumption).
      rewrite (count_quiet is_CompareOutput ev) by (disjoint || assumption).
      rewrite (count_quiet is_SendDebugOutput ev) by (disjoint || assumption).
      rewrite (count_quiet is_failed ev) by (disjoint || assumption).
      unfold boot_events, shutdown, startup.
      destruct (teamCityMode l), (screenshotFilename l),
        (autoCompare l && doCompare st); unfold count; simpl; lia.
    + rewrite !count_app.
      rewrite (count_quiet is_Core_Stop pre) by (disjoint || assumption).
      rewrite (count_quiet is_CompareOutput pre) by (disjoint || assumption).
      rewrite (count_quiet is_SendDebugOutput pre) by (disjoint || assumption).
      rewrite (count_quiet is_failed pre) by (disjoint || assumption).
      unfold boot_events, shutdown, startup, timeout_events. rewrite D, andb_false_r.
      destruct (teamCityMode l), (screenshotFilename l); unfold count; simpl; lia.
Qed.

Lemma timeout_and_comparison_exclude_witness :
  exists ex,
    main world_slow ["headless"; "-c"; "--timeout=0.5"; "x.elf"] = Some ex
    /\ count is_Core_Stop (trace ex) + count is_CompareOutput (trace ex) <= 1
    /\ count is_SendDebugOutput (trace ex) = count is_Core_Stop (trace ex)
    /\ count is_failed (trace ex) <= count is_Core_Stop (trace ex).
Proof.
  eexists. split; [reflexivity|].
  exact (timeout_and_comparison_exclude world_slow
           ["headless"; "-c"; "--timeout=0.5"; "x.elf"] _ eq_refl).
Defined.

(** ** Runs that end by themselves *)

Lemma loop_body_one_call (tcMode : bool) (tcName : string) (cp : CoreParameter)
  (deadline : float) (q : Quantum) (st : LoopState) :
  count is_RunLoopFor (snd (loop_body tcMode tcName cp deadline q st)) = 1
  /\ count is_SwapBuffers (snd (loop_body tcMode tcName cp deadline q st)) <= 1.
Proof.
  rewrite loop_body_events. unfold emu_printf, frame_swap, timeout_events.
  cbn [fst snd].
  destruct (printfEmuLog cp), (is_nextframe (q_coreState q)),
    (deadline <? q_time q)%float, tcMode; unfold count; simpl; lia.
Qed.

Lemma iterate_calls (tcMode : bool) (tcName : string) (cp : CoreParameter)
  (deadline : float) (qs : list Quantum) (st : LoopState) :
  count is_RunLoopFor (snd (iterate tcMode tcName cp deadline qs st)) = List.length qs.
Proof.
  revert st. induction qs as [|q qs IH]; intros st; [reflexivity|].
  cbn [iterate].
  pose proof (loop_body_one_call tcMode tcName cp deadline q st) as [B _].
  destruct (loop_body tcMode tcName cp deadline q st) as [st1 ev1].
  specialize (IH st1).
  destruct (iterate tcMode tcName cp deadline qs st1) as [st2 ev2].
  cbn [fst snd List.length] in *. rewrite count_app. lia.
Qed.

(** The iteration in which the core leaves a final state in time. *)
Lemma run_loop_complete (tcMode : bool) (tcName : string) (cp : CoreParameter)
  (deadline : float) (q : Quantum) (qs : list Quantum) (st : LoopState) :
  is_running (coreState st) = true ->
  leaves_loop (q_coreState q) = true ->
  (deadline <? q_time q)%float = false ->
  run_loop tcMode tcName cp deadline (q :: qs) st =
    Some ({| coreState := q_coreState q;
             output := snd (emu_printf cp (q_printed q) (output st));
             doCompare := doCompare st |},
          ([EvRunLoopFor blockTicks_us]
           ++ fst (emu_printf cp (q_printed q) (output st)))%list).
Proof.
  intros R E T. unfold leaves_loop in E. apply andb_prop in E. destruct E as [E1 E2].
  apply negb_true_iff in E1, E2.
  rewrite run_loop_step by assumption.
  rewrite loop_body_events, loop_body_state, T. unfold frame_swap. rewrite E2.
  cbn [fst snd]. rewrite run_loop_stopped by exact E1.
  now rewrite !List.app_nil_r.
Qed.

(** X9: when the core leaves a final state before the deadline, the run
    makes no further call of PSP_RunLoopFor, cleans up, and, when asked
    to compare, hands CompareOutput the boot file name and everything
    the program printed up to and including that slice; it returns 0. *)
Theorem completed_run
  (w : World) (argv : list string) (l : Locals) (boot : string)
  (qs1 : list Quantum) (q : Quantum) (qs2 : list Quantum) :
  command_line (strtod w) argv = inl (l, boot) ->
  boot_ok w l boot = true ->
  quanta w = (qs1 ++ q :: qs2)%list ->
  forallb (fun q' => negb (ends_loop (deadline_of w l) q')) qs1 = true ->
  leaves_loop (q_coreState q) = true ->
  (deadline_of w l <? q_time q)%float = false ->
  exists pre,
    main w argv
    = Some {| exit_code := 0;
              trace := boot_events w l boot ++ pre ++ cleanup_events
                       ++ (if autoCompare l
                           then [EvCompareOutput boot (printed (qs1 ++ [q]))]
                           else [])
                       ++ TeamCityPrint (teamCityMode l)
                            (testFinished (test_name l boot)) |}
    /\ forallb quiet_event pre = true
    /\ count is_RunLoopFor pre = S (List.length qs1).
Proof.
  intros C B Q N E T.
  set (tc := teamCityMode l). set (name := test_name l boot).
  set (cp := boot_parameter w l boot). set (d := deadline_of w l).
  destruct (iterate_quiet tc name cp d qs1 initial_state N eq_refl) as (R & DC & QE).
  pose proof (iterate_output tc name cp d qs1 initial_state) as O.
  pose proof (iterate_calls tc name cp d qs1 initial_state) as K.
  set (st1 := fst (iterate tc name cp d qs1 initial_state)) in *.
  set (ev1 := snd (iterate tc name cp d qs1 initial_state)) in *.
  set (pre := (ev1 ++ [EvRunLoopFor blockTicks_us]
                 ++ fst (emu_printf cp (q_printed q) (output st1)))%list).
  exists pre. split; [|split].
  - rewrite (main_run _ _ _ _ C), (run_boot_success _ _ _ B).
    unfold loop_of. fold tc name cp d. rewrite Q.
    rewrite (run_loop_app tc name cp d qs1 (q :: qs2) initial_state N eq_refl).
    fold st1 ev1. rewrite (run_loop_complete tc name cp d q qs2 st1 R E T).
    unfold shutdown, cleanup_events. cbn [doCompare output].
    rewrite DC. cbn [doCompare initial_state]. rewrite andb_true_r.
    do 2 f_equal. f_equal. fold tc name. unfold pre.
    rewrite <- !List.app_assoc. do 3 f_equal.
    unfold emu_printf. cbn [snd fst]. rewrite O.
    unfold cp. rewrite collectEmuLog_boot_parameter.
    destruct (autoCompare l); [|reflexivity].
    rewrite printed_app. simpl. now rewrite string_app_nil_r.
  - unfold pre. rewrite !forallb_app, QE, quiet_emu_printf. reflexivity.
  - unfold pre. rewrite !count_app, K. unfold emu_printf. cbn [fst].
    destruct (printfEmuLog cp); unfold count; simpl; lia.
Qed.

Lemma completed_run_witness :
  exists pre,
    main world_completes ["headless"; "-c"; "x.elf"]
    = Some {| exit_code := 0;
              trace := pre ++ [EvShutdownGL; EvPSP_Shutdown; EvFlushDebugOutput;
                               EvDeleteHost; EvCompareOutput "x.elf" "hellobye"] |}.
Proof.
  destruct (completed_run world_completes ["headless"; "-c"; "x.elf"]
              (set_bootFilename "x.elf" (set_autoCompare true init_locals)) "x.elf"
              [ {| q_coreState := CORE_NEXTFRAME; q_printed := "hello";
                   q_time := 100.25%float |} ]
              {| q_coreState := CORE_POWERDOWN; q_printed := "bye";
                 q_time := 100.75%float |}
              [] eq_refl eq_refl eq_refl eq_refl eq_refl eq_refl)
    as (pre & M & _).
  exists (boot_events world_completes
            (set_bootFilename "x.elf" (set_autoCompare true init_locals)) "x.elf"
            ++ pre)%list.
  rewrite M, <- List.app_assoc. reflexivity.
Defined.

(** ** Slices and frame swaps *)

Lemma run_loop_calls (tcMode : bool) (tcName : string) (cp : CoreParameter)
  (deadline : float) (qs : list Quantum) (st st' : LoopState) (ev : list Event) :
  run_loop tcMode tcName cp deadline qs st = Some (st', ev) ->
  count is_SwapBuffers ev <= count is_RunLoopFor ev.
Proof.
  revert st ev. induction qs as [|q qs IH]; intros st ev H.
  - simpl in H. destruct (is_running (coreState st)); [discriminate|].
    injection H as <- <-. reflexivity.
  - destruct (is_running (coreState st)) eqn:R.
    + rewrite run_loop_step in H by assumption.
      pose proof (loop_body_one_call tcMode tcName cp deadline q st) as [B1 B2].
      destruct (loop_body tcMode tcName cp deadline q st) as [st1 ev1].
      cbn [fst snd] in *.
      destruct (run_loop tcMode tcName cp deadline qs st1) as [[st2 ev2]|] eqn:L;
        [|discriminate].
      injection H as <- <-. specialize (IH _ _ L). rewrite !count_app. lia.
    + rewrite run_loop_stopped in H by assumption. injection H as <- <-.
      reflexivity.
Qed.

Lemma loop_body_slice (tcMode : bool) (tcName : string) (cp : CoreParameter)
  (deadline : float) (q : Quantum) (s : LoopState) :
  forallb (fun e => match e with
                    | EvRunLoopFor us => (us =? 100000)%Z
                    | _ => true
                    end)
    (snd (loop_body tcMode tcName cp deadline q s)) = true.
Proof.
  rewrite loop_body_events. unfold emu_printf, frame_swap, timeout_events.
  cbn [fst snd]. rewrite !forallb_app.
  destruct (printfEmuLog cp), (is_nextframe (q_coreState q)),
    (deadline <? q_time q)%float, tcMode; reflexivity.
Qed.

(** X10: the core is always advanced by the same slice, a tenth of a
    second of emulated time, and the frame is swapped at most once per
    slice: no trace holds more SwapBuffers than PSP_RunLoopFor calls. *)
Theorem slices_and_swaps (w : World) (argv : list string) (ex : Exit) :
  main w argv = Some ex ->
  count is_SwapBuffers (trace ex) <= count is_RunLoopFor (trace ex)
  /\ forall us, In (EvRunLoopFor us) (trace ex) -> us = 100000%Z.
Proof.
  intros M.
  destruct (main_cases _ _ _ M)
    as [(reason & C & ->)|[(l & boot & C & B & ->)|(l & boot & st & ev & C & B & L & ->)]];
    cbn [trace].
  - split.
    + rewrite !(printUsage_only_stderr _ _ _ _)
        by (intros e; destruct e; simpl; congruence).
      reflexivity.
    + intros us I. exfalso.
      destruct (printUsage_stderr (has_gpu_host w) (hd "" argv) reason) as [A _].
      rewrite forallb_forall in A. apply A in I. discriminate I.
  - unfold boot_failure_events, startup. split.
    + destruct (teamCityMode l); unfold count; simpl; lia.
    + intros us I.
      destruct (teamCityMode l); simpl in I;
        repeat (destruct I as [I|I]; try discriminate I); contradiction.
  - unfold loop_of in L. split.
    + pose proof (run_loop_calls _ _ _ _ _ _ _ _ L) as K.
      rewrite !count_app. unfold boot_events, shutdown, startup.
      destruct (teamCityMode l), (screenshotFilename l),
        (autoCompare l && doCompare st); unfold count in *; simpl; lia.
    + intros us I.
      pose proof (run_loop_forallb _ _ _ _ _ _ _ _ _
                    (loop_body_slice _ _ _ _) L) as Q.
      apply in_app_or in I. destruct I as [I|I].
      * exfalso. unfold boot_events, startup in I.
        destruct (teamCityMode l), (screenshotFilename l); simpl in I;
          repeat (destruct I as [I|I]; try discriminate I); contradiction.
      * apply in_app_or in I. destruct I as [I|I].
        -- rewrite forallb_forall in Q. apply Q in I. now apply Z.eqb_eq in I.
        -- exfalso. unfold shutdown in I.
           destruct (teamCityMode l), (autoCompare l && doCompare st); simpl in I;
             repeat (destruct I as [I|I]; try discriminate I); contradiction.
Qed.

Lemma slices_and_swaps_witness :
  exists ex,
    main world_completes ["headless"; "x.elf"] = Some ex
    /\ count is_SwapBuffers (trace ex) <= count is_RunLoopFor (trace ex).
Proof.
  eexists. split; [reflexivity|].
  apply (slices_and_swaps world_completes ["headless"; "x.elf"] _ eq_refl).
Defined.

(** ** Timeouts that are no numbers *)

Lemma nan_deadline (now t : float) : (now + nan <? t)%float = false.
Proof.
  rewrite ltb_spec, add_spec. change (Prim2SF nan) with S754_nan.
  destruct (Prim2SF now) as [[]|[]| |]; reflexivity.
Qed.

Lemma infinite_timeout_deadline (now t : float) : (now + infinity <? t)%float = false.
Proof.
  rewrite ltb_spec, add_spec. change (Prim2SF infinity) with (S754_infinity false).
  destruct (Prim2SF now) as [[]|[]| |], (Prim2SF t) as [[]|[]| |]; reflexivity.
Qed.

(** X11: a timeout that [strtod] reads as NaN or as plus infinity gives
    a deadline no clock reading exceeds: the run is then never stopped,
    just as without a timeout. *)
Theorem timeout_nan_or_infinite (w : World) (l : Locals) :
  timeout l = nan \/ timeout l = infinity ->
  (forall t, (deadline_of w l <? t)%float = false)
  /\ forall tc name cp qs st st' ev,
      run_loop tc name cp (deadline_of w l) qs st = Some (st', ev) ->
      doCompare st' = doCompare st /\ forallb quiet_event ev = true.
Proof.
  intros T.
  assert (D : forall t, (deadline_of w l <? t)%float = false).
  { intros t. unfold deadline_of, compute_deadline.
    destruct T as [-> | ->].
    - change (nan <? 0)%float with false. apply nan_deadline.
    - change (infinity <? 0)%float with false. apply infinite_timeout_deadline. }
  split; [exact D|].
  intros tc name cp qs st st' ev L.
  destruct (run_loop_never_late _ _ _ _ _ _ _ _ D L). auto.
Qed.

Lemma timeout_nan_or_infinite_witness :
  (deadline_of world_slow (set_timeout nan init_locals) <? 1000000)%float = false.
Proof.
  apply (timeout_nan_or_infinite world_slow (set_timeout nan init_locals)
           (or_introl eq_refl)).
Defined.

(** ** PrintfLogger *)

(** X12: [PrintfLogger::Log] writes one line to the error stream: a
    letter, a space and the message unchanged.  The line tells the
    message and the level apart, except that a level with no case of its
    own is written like a notice. *)
Theorem Log_line (l1 l2 : LOG_LEVELS) (m1 m2 : string) :
  (exists c, Log l1 m1 = [EvStderr (String c (String " " m1))])
  /\ (Log l1 m1 = Log l2 m2 ->
      m1 = m2
      /\ (l1 = l2
          \/ ((l1 = LNOTICE \/ l1 = L_OTHER) /\ (l2 = LNOTICE \/ l2 = L_OTHER)))).
Proof.
  split.
  - destruct l1; simpl; eauto.
  - intros H. destruct l1, l2; simpl in H; injection H as H;
      try discriminate H; split; auto; try congruence.
Qed.

Lemma Log_line_witness :
  Log LERROR "boot failed" = [EvStderr "E boot failed"]
  /\ Log L_OTHER "x" = Log LNOTICE "x".
Proof.
  split; [|reflexivity].
  destruct (Log_line LERROR LERROR "boot failed" "boot failed") as [[c E] _].
  rewrite E. simpl in E. injection E as <-. reflexivity.
Defined.

(** ** More on the argument loop *)

Lemma mount_locals (a : string) (l : Locals) :
  readMount l = false ->
  set_readMount false (set_mountIso a (set_readMount true l)) = set_mountIso a l.
Proof. destruct l. simpl. now intros ->. Qed.

(** X13: the argument after -m or --mount is the mount image whatever
    it looks like: it is not examined as an option, and the loop goes on
    behind it as it would have with only [mountIso] set. *)
Theorem mount_takes_next_argument (strtod : string -> float)
  (pre rest : list string) (l : Locals) (m a : string) :
  m = "-m" \/ m = "--mount" ->
  parse_args strtod pre init_locals = inl l ->
  readMount l = false ->
  parse_args strtod (pre ++ m :: a :: rest) init_locals
    = parse_args strtod rest (set_mountIso a l).
Proof.
  intros M P R. rewrite parse_args_app, P. cbn [parse_args].
  assert (E : parse_arg strtod l m = inl (set_readMount true l)).
  { unfold parse_arg. rewrite R. destruct M as [-> | ->]; reflexivity. }
  rewrite E.
  assert (E' : parse_arg strtod (set_readMount true l) a
               = inl (set_readMount false (set_mountIso a (set_readMount true l))))
    by reflexivity.
  rewrite E', mount_locals by assumption. reflexivity.
Qed.

Lemma mount_takes_next_argument_witness :
  parse_args sample_strtod ["x.elf"; "-m"; "--graphics=foo"; "-c"] init_locals
  = inl (set_autoCompare true
           (set_mountIso "--graphics=foo" (set_bootFilename "x.elf" init_locals))).
Proof.
  exact (eq_trans
           (mount_takes_next_argument sample_strtod ["x.elf"] ["-c"]
              (set_bootFilename "x.elf" init_locals) "-m" "--graphics=foo"
              (or_introl eq_refl) eq_refl eq_refl)
           eq_refl).
Defined.

(** X14: --graphics alone selects the GLES backend, but --graphics= and
    --screenshot= with nothing after the sign are no options: such an
    argument becomes the boot file when none is set, and is an
    unexpected argument otherwise. *)
Theorem option_with_empty_value (strtod : string -> float) (l : Locals) (p : string) :
  readMount l = false ->
  parse_arg strtod l "--graphics" = inl (set_gpuCore GPU_GLES l)
  /\ (p = "--graphics=" \/ p = "--screenshot=" ->
      parse_arg strtod l p
        = match bootFilename l with
          | None => inl (set_bootFilename p l)
          | Some _ => inr (Some ("Unexpected argument " ++ p))
          end).
Proof.
  intros R. split.
  - unfold parse_arg. rewrite R. reflexivity.
  - intros [-> | ->]; unfold parse_arg; rewrite R; destruct (bootFilename l);
      reflexivity.
Qed.

Lemma option_with_empty_value_witness :
  parse_arg sample_strtod init_locals "--screenshot="
    = inl (set_bootFilename "--screenshot=" init_locals)
  /\ parse_arg sample_strtod (set_bootFilename "x.elf" init_locals) "--graphics="
     = inr (Some "Unexpected argument --graphics=").
Proof.
  split.
  - apply (option_with_empty_value sample_strtod init_locals "--screenshot=" eq_refl).
    now right.
  - apply (option_with_empty_value sample_strtod
             (set_bootFilename "x.elf" init_locals) "--graphics=" eq_refl).
    now left.
Defined.

(** The boot file is assigned once, in the last branch of the loop. *)
Lemma parse_arg_boot (strtod : string -> float) (l l' : Locals) (a : string) :
  parse_arg strtod l a = inl l' ->
  match bootFilename l with
  | Some b => bootFilename l' = Some b
  | None => bootFilename l' = None
            \/ (bootFilename l' = Some a /\ known_option a = false)
  end.
Proof.
  intros H. parse_cases H; cbn; try (destruct (bootFilename l); auto; fail).
  right. split; [reflexivity|]. unfold known_option.
  repeat match goal with
         | E : _ || _ = false |- _ => apply orb_false_elim in E; destruct E
         end.
  repeat match goal with E : _ = false |- _ => rewrite E; clear E end.
  reflexivity.
Qed.

Lemma parse_args_boot (strtod : string -> float) (args : list string) (l l' : Locals) :
  parse_args strtod args l = inl l' ->
  match bootFilename l with
  | Some b => bootFilename l' = Some b
  | None => bootFilename l' = None
            \/ exists a, In a args /\ bootFilename l' = Some a
                         /\ known_option a = false
  end.
Proof.
  revert l. induction args as [|a args IH]; intros l H; simpl in H.
  - injection H as <-. destruct (bootFilename l); auto.
  - destruct (parse_arg strtod l a) as [l1|] eqn:P; [|discriminate].
    pose proof (parse_arg_boot _ _ _ _ P) as K. pose proof (IH _ H) as I.
    destruct (bootFilename l) as [b|].
    + now rewrite K in I.
    + destruct K as [K|[K1 K2]].
      * rewrite K in I. destruct I as [I|(b & M & E & U)]; [now left|].
        right. exists b. split; [now right|auto].
      * rewrite K1 in I. right. exists a. split; [now left|auto].
Qed.

(** X15: the file that is booted is one of the arguments, and one that
    matches no option: an accepted command line never boots an argument
    that the loop has a branch for, and [PSP_Init] is given that very
    file. *)
Theorem boot_file_is_a_plain_argument (w : World) (argv : list string)
  (l : Locals) (boot : string) :
  command_line (strtod w) argv = inl (l, boot) ->
  In boot (tl argv)
  /\ known_option boot = false
  /\ fileToStart (boot_parameter w l boot) = boot.
Proof.
  intros C. destruct (command_line_accepts _ _ _ _ C) as (P & _ & B).
  pose proof (parse_args_boot _ _ _ _ P) as K. cbn [bootFilename init_locals] in K.
  destruct K as [K|(a & I & E & U)]; [congruence|].
  rewrite B in E. injection E as ->. auto.
Qed.

Lemma boot_file_is_a_plain_argument_witness :
  In "x.elf" ["-c"; "x.elf"; "--teamcity"] /\ known_option "x.elf" = false.
Proof.
  destruct (boot_file_is_a_plain_argument world_completes
              ["headless"; "-c"; "x.elf"; "--teamcity"]
              (set_teamCityMode true
                 (set_bootFilename "x.elf" (set_autoCompare true init_locals)))
              "x.elf" eq_refl) as (I & K & _).
  split; assumption.
Defined.
